(** * solar: the command-line context of the contract deployment tool

    A shallow embedding of [cli.go] (package [solar]): the flag values, the
    process context [solarCLI] with its lazily built collaborators, the
    platform resolver, the repository accessor, the deployer factory, the
    compiler options and the parameter expansion, followed by the properties
    established about them.

    Go's effects are written out.  A method of [*solarCLI] is a function from
    the state of the process to an [outcome]: it returns, it terminates the
    process ([os.Exit], [log.Fatal...]) or it panics.  The state holds the
    fields of the context, the formatting toggle of package [contract] and
    the trace of the calls made to the outside. *)

From Stdlib Require Import Ascii String.
From stdpp Require Import base strings list gmap.

Local Open Scope string_scope.

(** ** Values of the Go runtime and of the standard library *)

(** An [error] is represented by the text its [Error()] method returns. *)
Definition error : Type := string.

(** [errors.New(text)] *)
Definition errors_New (text : string) : error := text.

(** [errors.Wrap(err, message)]: the message, a colon and the cause. *)
Definition errors_Wrap (err : error) (message : string) : error :=
  message +:+ ": " +:+ err.

(** [errors.Errorf(prefix + "%s", arg)] *)
Definition errors_Errorf (prefix arg : string) : error := prefix +:+ arg.

(** [fmt.Sprintf(before + "%s" + after, arg)] *)
Definition fmt_Sprintf (before arg after : string) : string :=
  before +:+ arg +:+ after.

(** [s == ""] *)
Definition is_empty (s : string) : bool :=
  match s with
  | EmptyString => true
  | String _ _ => false
  end.

(** [strings.Split(s, sep)] for a separator [sep] of one byte: the fields of
    [s] between the occurrences of [sep], one more than there are
    separators. *)
Fixpoint strings_Split (s : string) (sep : ascii) : list string :=
  match s with
  | EmptyString => [EmptyString]
  | String a rest =>
      if Ascii.eqb a sep then EmptyString :: strings_Split rest sep
      else match strings_Split rest sep with
           | field :: fields => String a field :: fields
           | [] => [String a EmptyString]
           end
  end.

(** [strings.Join(fields, sep)], the inverse of [strings_Split]. *)
Fixpoint strings_Join (fields : list string) (sep : ascii) : string :=
  match fields with
  | [] => EmptyString
  | [field] => field
  | field :: more => field +:+ String sep (strings_Join more sep)
  end.

(** [strings.Count(s, sep)] for a separator of one byte. *)
Fixpoint strings_Count (s : string) (sep : ascii) : nat :=
  match s with
  | EmptyString => 0
  | String a rest =>
      (if Ascii.eqb a sep then 1 else 0) + strings_Count rest sep
  end.

(** *** Channels

    A channel made by [make(chan T, n)] holds at most [n] buffered values;
    [make(chan T)] is [make(chan T, 0)].  [recvq] counts the goroutines
    parked in a receive on the channel. *)
Record chan (T : Type) : Type := Chan {
  cap : nat;
  buf : list T;
  recvq : nat
}.
Arguments Chan {T} _ _ _.
Arguments cap {T} _.
Arguments buf {T} _.
Arguments recvq {T} _.

Definition make_chan (T : Type) (n : nat) : chan T :=
  {| cap := n; buf := []; recvq := 0 |}.

(** [ch <- v]: the value is handed to a parked receiver, or buffered when
    there is room; otherwise the sender blocks, which is [None]. *)
Definition chan_send {T : Type} (ch : chan T) (v : T) : option (chan T) :=
  match recvq ch with
  | S waiting => Some {| cap := cap ch; buf := buf ch; recvq := waiting |}
  | O =>
      if decide (length (buf ch) < cap ch)
      then Some {| cap := cap ch; buf := buf ch ++ [v]; recvq := 0 |}
      else None
  end.

(** [<-ch] by the receiving goroutine: it takes the oldest buffered value,
    or parks until a sender arrives. *)
Definition chan_recv {T : Type} (ch : chan T) : chan T :=
  match buf ch with
  | _ :: rest => {| cap := cap ch; buf := rest; recvq := recvq ch |}
  | [] => {| cap := cap ch; buf := []; recvq := S (recvq ch) |}
  end.

(** ** Flags *)

(** The values of the kingpin flags after [app.Parse]; [solarEnv] defaults
    to ["development"], [solcOptimize] to [true], the others to [""]. *)
Record Flags : Type := {
  sicashRPC : string;
  sicashSenderAddress : string;
  ethRPC : string;
  solarEnv : string;
  solarRepo : string;
  solcOptimize : bool;
  solcAllowPaths : string
}.

Definition defaultFlags : Flags :=
  {| sicashRPC := ""; sicashSenderAddress := ""; ethRPC := "";
     solarEnv := "development"; solarRepo := "";
     solcOptimize := true; solcAllowPaths := "" |}.

Inductive RPCPlatform : Type :=
| RPCSICash
| RPCEthereum.

Definition errorUnspecifiedRPC : error :=
  errors_New "Please specify RPC url by setting SICASH_RPC or ETH_RPC or using flag --sicash_rpc or --eth_rpc".

Record CompilerOptions : Type := {
  NoOptimize : bool;
  AllowPaths : list string
}.

(** ** Package [contract] *)

Module contract.

(** Modelled from the spec: package [contract] is not part of the sources
    at hand.  An address is kept as the text of its rendering without
    prefix; a repository maps contract names to contracts. *)
Definition Bytes : Type := string.

(** Modelled from the spec: a contract of the repository, of which only the
    address is used here. *)
Record Contract : Type := { Address : Bytes }.

(** Modelled from the spec: the repository handle, the name-to-contract
    mapping read from the repository file. *)
Record ContractsRepository : Type := {
  contracts : gmap string Contract
}.

(** Modelled from the spec: [RepositoryHandle.Get(name) -> (Contract, found)];
    the contract is the zero value when the name is not found. *)
Definition Get (r : ContractsRepository) (name : string) : Contract * bool :=
  match contracts r !! name with
  | Some k => (k, true)
  | None => ({| Address := "" |}, false)
  end.

(** Modelled from the spec: the rendering of an address as a string carries
    the prefix when the process-wide toggle is set. *)
Definition Bytes_String (prefix : string) (withPrefix : bool) (b : Bytes)
  : string :=
  if withPrefix then prefix +:+ b else b.

End contract.

(** ** The collaborators outside the package

    [net/url], [os], and the packages [contract], [deployer/sicash] and
    [deployer/eth]: what the code calls and only sees through results. *)
Class Externals : Type := {
  URL : Type;
  Deployer : Type;
  Event : Type;
  (** [url.ParseRequestURI(rawurl)] *)
  url_ParseRequestURI : string -> URL + error;
  (** [os.Getwd()] *)
  os_Getwd : string + error;
  (** [contract.OpenContractsRepository(path)] *)
  contract_OpenContractsRepository :
    string -> contract.ContractsRepository + error;
  (** the prefix of [contract]'s with-prefix rendering *)
  contract_bytesPrefix : string;
  (** [sicash.NewDeployer(rpcURL, repo, senderAddress)]: the deployer
      ([None] is [nil]) and the error ([None] is [nil]) *)
  sicash_NewDeployer :
    URL -> option contract.ContractsRepository -> string ->
    option Deployer * option error;
  (** [eth.NewDeployer(rpcURL, repo)] *)
  eth_NewDeployer :
    URL -> option contract.ContractsRepository ->
    option Deployer * option error
}.

(** ** The process *)

Section Process.
Context `{Ext : Externals}.

(** Modelled from the spec: the type [events] of the reporter is declared
    outside [cli.go]; the only field [Reporter()] sets is the inbound
    channel. *)
Record events : Type := { in_ : chan Event }.

(** The struct [solarCLI].  A [sync.Once] is its done flag; a pointer or an
    interface value is an option, [None] being [nil]. *)
Record solarCLI : Type := {
  depoyer : option Deployer;
  deployerOnce : bool;
  repo : option contract.ContractsRepository;
  repoOnce : bool;
  reporter : option events;
  reporterOnce : bool
}.

(** [var solar = &solarCLI{}] *)
Definition solar0 : solarCLI :=
  {| depoyer := None; deployerOnce := false;
     repo := None; repoOnce := false;
     reporter := None; reporterOnce := false |}.

(** What the process does to the outside, in order. *)
Inductive Effect : Type :=
| CallOpenContractsRepository (path : string)
| CallSICashNewDeployer
    (rpcURL : URL) (r : option contract.ContractsRepository)
    (sender : string)
| CallEthNewDeployer (rpcURL : URL) (r : option contract.ContractsRepository)
| CallSetFormatBytesWithPrefix (b : bool)
| GoStart
| Printf (format : string) (args : list string)
| LogFatalln (v : error)
| LogFatalf (format : string) (args : list string).

Record State : Type := {
  ctx : solarCLI;
  formatBytesWithPrefix : bool;
  trace : list Effect
}.

(** The process at start: the empty context, the toggle off, nothing done. *)
Definition State0 : State :=
  {| ctx := solar0; formatBytesWithPrefix := false; trace := [] |}.

Inductive outcome (A : Type) : Type :=
| Returned (a : A) (s : State)
| Exited (code : nat) (s : State)
| Panicked (e : error) (s : State).
Arguments Returned {A} _ _.
Arguments Exited {A} _ _.
Arguments Panicked {A} _ _.

Definition M (A : Type) : Type := State -> outcome A.

Definition ret {A : Type} (a : A) : M A := fun s => Returned a s.

Definition bind {A B : Type} (m : M A) (k : A -> M B) : M B :=
  fun s =>
    match m s with
    | Returned a s' => k a s'
    | Exited code s' => Exited code s'
    | Panicked e s' => Panicked e s'
    end.

Definition emit (e : Effect) : M unit :=
  fun s =>
    Returned tt {| ctx := ctx s;
                   formatBytesWithPrefix := formatBytesWithPrefix s;
                   trace := trace s ++ [e] |}.

Definition get_ctx : M solarCLI := fun s => Returned (ctx s) s.

Definition modify_ctx (f : solarCLI -> solarCLI) : M unit :=
  fun s =>
    Returned tt {| ctx := f (ctx s);
                   formatBytesWithPrefix := formatBytesWithPrefix s;
                   trace := trace s |}.

(** [os.Exit(code)] *)
Definition os_Exit {A : Type} (code : nat) : M A := fun s => Exited code s.

(** [panic(err)] *)
Definition panic {A : Type} (e : error) : M A := fun s => Panicked e s.

Definition set_formatBytesWithPrefix (b : bool) : M unit :=
  fun s =>
    Returned tt {| ctx := ctx s; formatBytesWithPrefix := b;
                   trace := trace s |}.

Definition set_repo (r : option contract.ContractsRepository)
  (c : solarCLI) : solarCLI :=
  {| depoyer := depoyer c; deployerOnce := deployerOnce c;
     repo := r; repoOnce := repoOnce c;
     reporter := reporter c; reporterOnce := reporterOnce c |}.

Definition set_repoOnce (c : solarCLI) : solarCLI :=
  {| depoyer := depoyer c; deployerOnce := deployerOnce c;
     repo := repo c; repoOnce := true;
     reporter := reporter c; reporterOnce := reporterOnce c |}.

Definition set_reporter (r : option events) (c : solarCLI) : solarCLI :=
  {| depoyer := depoyer c; deployerOnce := deployerOnce c;
     repo := repo c; repoOnce := repoOnce c;
     reporter := r; reporterOnce := reporterOnce c |}.

Definition set_reporterOnce (c : solarCLI) : solarCLI :=
  {| depoyer := depoyer c; deployerOnce := deployerOnce c;
     repo := repo c; repoOnce := repoOnce c;
     reporter := reporter c; reporterOnce := true |}.

(** [once.Do(f)] for the [sync.Once] whose done flag is read by [done] and
    set by [mark]: [f] runs when the flag is unset, and the flag is set when
    [f] returns or panics; [os.Exit] inside [f] ends the process at once. *)
Definition Once_Do (done : solarCLI -> bool) (mark : solarCLI -> solarCLI)
  (f : M unit) : M unit :=
  fun s =>
    if done (ctx s) then Returned tt s
    else match f s with
         | Returned _ s' => modify_ctx mark s'
         | Exited code s' => Exited code s'
         | Panicked e s' =>
             match modify_ctx mark s' with
             | Returned _ s'' => Panicked e s''
             | other => other
             end
         end.

End Process.

Arguments outcome {Ext} A.
Arguments Returned {Ext A} _ _.
Arguments Exited {Ext A} _ _.
Arguments Panicked {Ext A} _ _.
Arguments M {Ext} A.

Global Instance outcome_ret `{Ext : Externals} : MRet M := @ret Ext.
Global Instance outcome_bind `{Ext : Externals} : MBind M :=
  fun A B k m => bind m k.

(** [log.Fatalln(v)]: the line is written, then [os.Exit(1)]. *)
Definition log_Fatalln `{Ext : Externals} {A : Type} (v : error) : M A :=
  emit (LogFatalln v) ;; os_Exit 1.

(** [log.Fatalf(format, args...)] *)
Definition log_Fatalf `{Ext : Externals} {A : Type}
  (format : string) (args : list string) : M A :=
  emit (LogFatalf format args) ;; os_Exit 1.

(** Modelled from the spec: [contract.SetFormatBytesWithPrefix(b)] sets the
    process-wide formatting toggle. *)
Definition contract_SetFormatBytesWithPrefix `{Ext : Externals} (b : bool)
  : M unit :=
  emit (CallSetFormatBytesWithPrefix b) ;; set_formatBytesWithPrefix b.

(** Modelled from the spec: [Address.String()] reads the toggle. *)
Definition Address_String `{Ext : Externals} (k : contract.Contract)
  : M string :=
  fun s =>
    Returned (contract.Bytes_String contract_bytesPrefix
                (formatBytesWithPrefix s) (contract.Address k)) s.

(** ** Package [varstr] *)

Module varstr.

(** Modelled from the spec: what the scan finds in a template, text that
    passes through and placeholders by their identifier. *)
Inductive token : Type :=
| Text (t : string)
| Name (name : string).

(** Modelled from the spec: where the scan stands, in text, after the
    sigil, in a bare identifier or in a delimited one. *)
Inductive mode : Type :=
| Plain
| Sigil
| Bare (acc : string)
| Braced (acc : string).

(** Modelled from the spec: package [varstr] is not part of the sources at
    hand.  The spec gives the two forms [$Name] and [${Name}] and a
    single left-to-right pass; the identifier characters (letters, digits
    and the underscore) and the treatment of a sigil that starts no
    placeholder (kept as text) are this model's reading of it. *)
Definition isIdentChar (a : ascii) : bool :=
  let n := nat_of_ascii a in
  (Nat.leb 48 n && Nat.leb n 57) || (Nat.leb 65 n && Nat.leb n 90)
  || (Nat.leb 97 n && Nat.leb n 122) || Nat.eqb n 95.

(** Modelled from the spec: a character read outside a placeholder. *)
Definition plain (a : ascii) (out : list token) : mode * list token :=
  if Ascii.eqb a "$" then (Sigil, out)
  else (Plain, Text (String a EmptyString) :: out).

(** Modelled from the spec: one character of the scan; the tokens are
    collected last first. *)
Definition step (st : mode * list token) (a : ascii) : mode * list token :=
  match st with
  | (Plain, out) => plain a out
  | (Sigil, out) =>
      if Ascii.eqb a "{" then (Braced EmptyString, out)
      else if isIdentChar a then (Bare (String a EmptyString), out)
      else plain a (Text "$" :: out)
  | (Bare acc, out) =>
      if isIdentChar a then (Bare (acc +:+ String a EmptyString), out)
      else plain a (Name acc :: out)
  | (Braced acc, out) =>
      if Ascii.eqb a "}"
      then (Plain, (if is_empty acc then Text "${}" else Name acc) :: out)
      else if isIdentChar a
           then (Braced (acc +:+ String a EmptyString), out)
           else plain a (Text ("${" +:+ acc) :: out)
  end.

(** Modelled from the spec: the single pass, from left to right. *)
Fixpoint run (st : mode * list token) (s : string) : mode * list token :=
  match s with
  | EmptyString => st
  | String a rest => run (step st a) rest
  end.

(** Modelled from the spec: the end of the template closes what is open. *)
Definition finish (st : mode * list token) : list token :=
  match st with
  | (Plain, out) => out
  | (Sigil, out) => Text "$" :: out
  | (Bare acc, out) => Name acc :: out
  | (Braced acc, out) => Text ("${" +:+ acc) :: out
  end.

(** Modelled from the spec: the template as the sequence of its text pieces
    and placeholders. *)
Definition scan (s : string) : list token :=
  rev (finish (run (Plain, []) s)).

(** Modelled from the spec: the tokens from left to right; text is copied,
    a placeholder is replaced by what [mapping] returns for its identifier,
    and a [mapping] that does not return ends the expansion there. *)
Fixpoint expand_tokens `{Ext : Externals} (toks : list token)
  (mapping : string -> M string) : M string :=
  match toks with
  | [] => mret EmptyString
  | Text t :: rest =>
      out ← expand_tokens rest mapping; mret (t +:+ out)
  | Name name :: rest =>
      v ← mapping name;
      out ← expand_tokens rest mapping; mret (v +:+ out)
  end.

(** Modelled from the spec: [varstr.Expand(s, mapping)], package [varstr]
    not being part of the sources at hand. *)
Definition Expand `{Ext : Externals} (s : string)
  (mapping : string -> M string) : M string :=
  expand_tokens (scan s) mapping.

End varstr.

(** ** The methods of [*solarCLI] *)

Module solar.
Section Methods.
Context `{Ext : Externals}.

Definition RPCPlatform (fl : Flags) : M RPCPlatform :=
  (if is_empty (sicashRPC fl) && is_empty (ethRPC fl)
   then log_Fatalln errorUnspecifiedRPC
   else mret tt) ;;
  if negb (is_empty (sicashRPC fl)) then mret RPCSICash
  else mret RPCEthereum.

Definition Reporter : M (option events) :=
  Once_Do reporterOnce set_reporterOnce
    (modify_ctx (set_reporter (Some {| in_ := make_chan Event 0 |})) ;;
     emit GoStart) ;;
  c ← get_ctx; mret (reporter c).

(** [SolcOptions] touches no state: its two results, the options ([None] is
    [nil]) and the error. *)
Definition SolcOptions (fl : Flags) : option CompilerOptions * option error :=
  let allowPathsStr := solcAllowPaths fl in
  let continue (allowPathsStr : string) :=
    let allowPaths := strings_Split allowPathsStr "," in
    (Some {| NoOptimize := negb (solcOptimize fl);
             AllowPaths := allowPaths |}, None) in
  if is_empty allowPathsStr then
    match os_Getwd with
    | inr err => (None, Some (errors_Wrap err "solc options"))
    | inl cwd => continue cwd
    end
  else continue allowPathsStr.

(** Open the file [solar.{SOLAR_ENV}.json] as contracts repository. *)
Definition ContractsRepository (fl : Flags)
  : M (option contract.ContractsRepository) :=
  Once_Do repoOnce set_repoOnce
    (let repoFilePath :=
       if negb (is_empty (solarRepo fl)) then solarRepo fl
       else fmt_Sprintf "solar." (solarEnv fl) ".json" in
     emit (CallOpenContractsRepository repoFilePath) ;;
     match contract_OpenContractsRepository repoFilePath with
     | inr err =>
         emit (Printf "error opening contracts repo file %s: %s\n"
                 [repoFilePath; err]) ;;
         os_Exit 1
     | inl r => modify_ctx (set_repo (Some r))
     end) ;;
  c ← get_ctx; mret (repo c).

(** The function handed to [varstr.Expand] by [ExpandJSONParams]; a lookup
    through a [nil] repository is a runtime panic. *)
Definition expandKey (r : option contract.ContractsRepository)
  (key : string) : M string :=
  match r with
  | None => panic "runtime error: invalid memory address or nil pointer dereference"
  | Some r =>
      let '(k, found) := contract.Get r key in
      if negb found
      then panic (errors_Errorf "Invalid address expansion: " key)
      else Address_String k
  end.

(** [ExpandJSONParams] uses variable substitution syntax ([$Foo], [${Foo}])
    as placeholder for contract addresses. *)
Definition ExpandJSONParams (fl : Flags) (jsonParams : string) : M string :=
  r ← ContractsRepository fl;
  varstr.Expand jsonParams (expandKey r).

Definition ConfigureBytesOutputFormat (fl : Flags) : M unit :=
  if negb (is_empty (ethRPC fl))
  then contract_SetFormatBytesWithPrefix true
  else mret tt.

Definition Deployer (fl : Flags) : M (option Deployer) :=
  '(deployer, err) ←
    (let rawurl := sicashRPC fl in
     if negb (is_empty rawurl) then
       match url_ParseRequestURI rawurl with
       | inr _ => log_Fatalf "Invalid RPC url: %#v" [rawurl]
       | inl rpcURL =>
           r ← ContractsRepository fl;
           emit (CallSICashNewDeployer rpcURL r (sicashSenderAddress fl)) ;;
           mret (sicash_NewDeployer rpcURL r (sicashSenderAddress fl))
       end
     else mret (None, None));
  '(deployer, err) ←
    (let rawurl := ethRPC fl in
     if negb (is_empty rawurl) then
       match url_ParseRequestURI rawurl with
       | inr _ => log_Fatalf "Invalid RPC url: %#v" [rawurl]
       | inl rpcURL =>
           r ← ContractsRepository fl;
           emit (CallEthNewDeployer rpcURL r) ;;
           mret (eth_NewDeployer rpcURL r)
       end
     else mret (deployer, err));
  match deployer with
  | None => log_Fatalln errorUnspecifiedRPC
  | Some _ => mret tt
  end ;;
  match err with
  | Some e => log_Fatalf "NewDeployer error %v" [e]
  | None => mret tt
  end ;;
  mret deployer.

(** [SICashRPC()]; [sicash_NewRPC] is [sicash.NewRPC], of a package outside
    [cli.go].  [fmt.Println(a, b)] writes what [fmt.Printf("%v %v\n", a, b)]
    writes. *)
Definition SICashRPC {RPC : Type} (sicash_NewRPC : string -> RPC + error)
  (fl : Flags) : M RPC :=
  match sicash_NewRPC (sicashRPC fl) with
  | inr _ =>
      emit (Printf "%v %v\n" ["Invalid SICASH RPC URL:"; sicashRPC fl]) ;;
      os_Exit 1
  | inl rpc => mret rpc
  end.

(** [Main()]: [parsed] is what [app.Parse(os.Args[1:])] returned, the name
    of the command or the error, [fl] the flags as the parse left them, and
    [appTasks] the table of the tasks; a command without entry gives the
    [nil] function, whose call is a runtime panic. *)
Definition Main (fl : Flags) (parsed : string + error)
  (appTasks : gmap string (M (option error))) : M unit :=
  match parsed with
  | inr err => emit (Printf "%v\n" [err]) ;; os_Exit 1
  | inl cmdName =>
      ConfigureBytesOutputFormat fl ;;
      match appTasks !! cmdName with
      | None => panic "runtime error: invalid memory address or nil pointer dereference"
      | Some task =>
          err ← task;
          match err with
          | Some e => emit (Printf "%v\n" [e]) ;; os_Exit 1
          | None => mret tt
          end
      end
  end.

End Methods.
End solar.

(** ** The reporter's channel in use *)

Section Reporter.
Context `{Ext : Externals}.

(** Modelled from the spec: [report(event)] sends the event on the inbound
    channel; [None] is a caller that blocks in the send. *)
Definition events_report (e : events) (v : Event) : option events :=
  match chan_send (in_ e) v with
  | Some ch => Some {| in_ := ch |}
  | None => None
  end.

(** Modelled from the spec: the drain task receives from the channel. *)
Definition events_drain (e : events) : events :=
  {| in_ := chan_recv (in_ e) |}.

(** The reporter built by [Reporter()]. *)
Definition newEvents : events := {| in_ := make_chan Event 0 |}.

(** The states of the reporter over the life of the process: producers
    send, and the one drain task, when it is not already parked, comes back
    to its receive. *)
Inductive reporter_reachable : events -> Prop :=
| reach_new : reporter_reachable newEvents
| reach_report (e e' : events) (v : Event) :
    reporter_reachable e -> events_report e v = Some e' ->
    reporter_reachable e'
| reach_drain (e : events) :
    reporter_reachable e -> recvq (in_ e) = 0 ->
    reporter_reachable (events_drain e).

End Reporter.

(** ** Observations on outcomes and traces *)

Section Observations.
Context `{Ext : Externals}.

Definition state_of {A : Type} (o : outcome A) : State :=
  match o with
  | Returned _ s => s
  | Exited _ s => s
  | Panicked _ s => s
  end.

Definition returned {A : Type} (o : outcome A) : option A :=
  match o with
  | Returned a _ => Some a
  | _ => None
  end.

(** The paths handed to [contract.OpenContractsRepository], in order. *)
Fixpoint opened (t : list Effect) : list string :=
  match t with
  | [] => []
  | CallOpenContractsRepository path :: rest => path :: opened rest
  | _ :: rest => opened rest
  end.

(** The number of calls of a backend's [NewDeployer]. *)
Fixpoint constructions (t : list Effect) : nat :=
  match t with
  | [] => 0
  | CallSICashNewDeployer _ _ _ :: rest => S (constructions rest)
  | CallEthNewDeployer _ _ :: rest => S (constructions rest)
  | _ :: rest => constructions rest
  end.

(** [n] calls of [Deployer()] one after the other; the results are kept
    oldest first. *)
Fixpoint Deployer_times (fl : Flags) (n : nat) : M (list (option Deployer)) :=
  match n with
  | O => mret []
  | S n' =>
      d ← solar.Deployer fl;
      ds ← Deployer_times fl n';
      mret (d :: ds)
  end.

(** The file the repository accessor resolves, as the spec words it: the
    override when there is one, else [solar.<environment>.json]. *)
Definition repoFilePath_spec (fl : Flags) : string :=
  match solarRepo fl with
  | EmptyString => "solar." +:+ solarEnv fl +:+ ".json"
  | String _ _ => solarRepo fl
  end.

(** What a token contributes to the expansion over the repository [r]. *)
Definition render (withPrefix : bool) (r : contract.ContractsRepository)
  (t : varstr.token) : string :=
  match t with
  | varstr.Text text => text
  | varstr.Name name =>
      contract.Bytes_String contract_bytesPrefix withPrefix
        (contract.Address (fst (contract.Get r name)))
  end.

Fixpoint render_all (withPrefix : bool) (r : contract.ContractsRepository)
  (toks : list varstr.token) : string :=
  match toks with
  | [] => EmptyString
  | t :: rest => render withPrefix r t +:+ render_all withPrefix r rest
  end.

(** Every placeholder among the tokens is a name of the repository. *)
Fixpoint all_found (r : contract.ContractsRepository)
  (toks : list varstr.token) : bool :=
  match toks with
  | [] => true
  | varstr.Text _ :: rest => all_found r rest
  | varstr.Name name :: rest => snd (contract.Get r name) && all_found r rest
  end.

(** The state once the repository [r] has been stored and the once-flag
    set, after the call that opened [path]. *)
Definition opened_state (s : State) (path : string)
  (r : contract.ContractsRepository) : State :=
  {| ctx := set_repoOnce (set_repo (Some r) (ctx s));
     formatBytesWithPrefix := formatBytesWithPrefix s;
     trace := trace s ++ [CallOpenContractsRepository path] |}.

(** The state in which the process exits when [path] does not open. *)
Definition failed_state (s : State) (path : string) (err : error) : State :=
  {| ctx := ctx s;
     formatBytesWithPrefix := formatBytesWithPrefix s;
     trace := (trace s ++ [CallOpenContractsRepository path])
              ++ [Printf "error opening contracts repo file %s: %s\n"
                    [path; err]] |}.

(** The state after further effects [l]. *)
Definition after (s : State) (l : list Effect) : State :=
  {| ctx := ctx s;
     formatBytesWithPrefix := formatBytesWithPrefix s;
     trace := trace s ++ l |}.

(** What [Deployer()] does with the two results of the constructor that ran
    last: the [nil] check, the error check, the return. *)
Definition Deployer_verdict (result : option Deployer * option error)
  (s : State) : outcome (option Deployer) :=
  match result with
  | (None, _) => Exited 1 (after s [LogFatalln errorUnspecifiedRPC])
  | (Some d, Some e) =>
      Exited 1 (after s [LogFatalf "NewDeployer error %v" [e]])
  | (Some d, None) => Returned (Some d) s
  end.

(** The state in which [log.Fatalln(v)] leaves the process. *)
Definition fatal_state (s : State) (v : error) : State :=
  {| ctx := ctx s;
     formatBytesWithPrefix := formatBytesWithPrefix s;
     trace := trace s ++ [LogFatalln v] |}.

(** The state after [contract.SetFormatBytesWithPrefix(b)]. *)
Definition format_state (s : State) (b : bool) : State :=
  {| ctx := ctx s;
     formatBytesWithPrefix := b;
     trace := trace s ++ [CallSetFormatBytesWithPrefix b] |}.

End Observations.

(** ** Sequences of calls *)

Section Calls.
Context `{Ext : Externals}.

(** [n] calls of [m] one after the other; the results oldest first. *)
Fixpoint repeatM {A : Type} (m : M A) (n : nat) : M (list A) :=
  match n with
  | O => mret []
  | S n' =>
      a ← m;
      more ← repeatM m n';
      mret (a :: more)
  end.

(** The number of [go c.reporter.Start()] statements executed. *)
Fixpoint starts (t : list Effect) : nat :=
  match t with
  | [] => 0
  | GoStart :: rest => S (starts rest)
  | _ :: rest => starts rest
  end.

(** The backends whose [NewDeployer] was called, in order. *)
Fixpoint constructed (t : list Effect) : list RPCPlatform :=
  match t with
  | [] => []
  | CallSICashNewDeployer _ _ _ :: rest => RPCSICash :: constructed rest
  | CallEthNewDeployer _ _ :: rest => RPCEthereum :: constructed rest
  | _ :: rest => constructed rest
  end.

(** The calls a task can make on the context. *)
Inductive call : Type :=
| DoRPCPlatform
| DoReporter
| DoSolcOptions
| DoContractsRepository
| DoSICashRPC
| DoExpandJSONParams (jsonParams : string)
| DoConfigureBytesOutputFormat
| DoDeployer.

(** A caller that goes on after [m], whatever [m] returned, and also after
    a panic of [m], as one that recovers it does; an exit ends the
    process. *)
Definition and_go_on {A : Type} (m : M A) : M unit :=
  fun s =>
    match m s with
    | Returned _ s' => Returned tt s'
    | Exited code s' => Exited code s'
    | Panicked _ s' => Returned tt s'
    end.

Section WithRPC.
Context {RPC : Type} (sicash_NewRPC : string -> RPC + error).

Definition run_call (fl : Flags) (c : call) : M unit :=
  match c with
  | DoRPCPlatform => and_go_on (solar.RPCPlatform fl)
  | DoReporter => and_go_on solar.Reporter
  | DoSolcOptions => and_go_on (mret (solar.SolcOptions fl))
  | DoContractsRepository => and_go_on (solar.ContractsRepository fl)
  | DoSICashRPC => and_go_on (solar.SICashRPC sicash_NewRPC fl)
  | DoExpandJSONParams jsonParams =>
      and_go_on (solar.ExpandJSONParams fl jsonParams)
  | DoConfigureBytesOutputFormat =>
      and_go_on (solar.ConfigureBytesOutputFormat fl)
  | DoDeployer => and_go_on (solar.Deployer fl)
  end.

Fixpoint run_calls (fl : Flags) (cs : list call) : M unit :=
  match cs with
  | [] => mret tt
  | c :: rest => run_call fl c ;; run_calls fl rest
  end.

(** A task that makes the calls [cs] and returns no error. *)
Definition task_of (fl : Flags) (cs : list call) : M (option error) :=
  run_calls fl cs ;; mret None.

End WithRPC.

(** What holds of the process while it runs: the repository file has been
    opened when and only when [repoOnce] is done, and then once and with a
    repository stored; the reporter has been started when and only when
    [reporterOnce] is done, and then once and stored; the prefix is on only
    with an eth endpoint; the deployer fields are as at the start. *)
Definition lazy_inv (fl : Flags) (s : State) : Prop :=
  (if repoOnce (ctx s)
   then length (opened (trace s)) = 1 /\ is_Some (repo (ctx s))
   else opened (trace s) = [] /\ repo (ctx s) = None) /\
  (if reporterOnce (ctx s)
   then starts (trace s) = 1 /\ reporter (ctx s) = Some newEvents
   else starts (trace s) = 0 /\ reporter (ctx s) = None) /\
  (formatBytesWithPrefix s = true -> ethRPC fl <> "") /\
  depoyer (ctx s) = None /\ deployerOnce (ctx s) = false.

(** What holds of the process also when it has exited. *)
Definition final_inv (fl : Flags) (s : State) : Prop :=
  length (opened (trace s)) <= 1 /\
  starts (trace s) <= 1 /\
  (formatBytesWithPrefix s = true -> ethRPC fl <> "") /\
  depoyer (ctx s) = None /\ deployerOnce (ctx s) = false.

(** The invariant of an outcome: the running one when the process goes on,
    the final one when it has exited. *)
Definition outcome_inv {A : Type} (fl : Flags) (o : outcome A) : Prop :=
  match o with
  | Returned _ s => lazy_inv fl s
  | Panicked _ s => lazy_inv fl s
  | Exited _ s => final_inv fl s
  end.

(** The state once the reporter has been made and its task started. *)
Definition started_state (s : State) : State :=
  {| ctx := set_reporterOnce (set_reporter (Some newEvents) (ctx s));
     formatBytesWithPrefix := formatBytesWithPrefix s;
     trace := trace s ++ [GoStart] |}.

(** [m] never switches the prefix off. *)
Definition keeps_prefix {A : Type} (m : M A) : Prop :=
  forall s : State,
    formatBytesWithPrefix s = true ->
    formatBytesWithPrefix (state_of (m s)) = true.

(** [m] keeps the invariant. *)
Definition preserves {A : Type} (fl : Flags) (m : M A) : Prop :=
  forall s : State, lazy_inv fl s -> outcome_inv fl (m s).

(** *** The reporter as an object

    [Reporter()] stores and returns a pointer.  To tell one reporter from
    another of the same content, the objects made by [&events{...}] are kept
    in a store in the order of their allocation, and a pointer is the
    position of its object in the store. *)
Record Process : Type := {
  state : State;
  objects : list events;
  reporter_ptr : option nat
}.

(** The process at start, with nothing allocated. *)
Definition Process0 : Process :=
  {| state := State0; objects := []; reporter_ptr := None |}.

(** [Reporter()] with its pointer.  When [reporterOnce] is done the pointer
    kept in [c.reporter] is returned and nothing is allocated; otherwise
    the function given to [reporterOnce.Do] allocates the new [events],
    stores its pointer in [c.reporter], and that pointer is returned.  The
    once-flag, the content of the reporter and the start of its task are
    those of [solar.Reporter]. *)
Definition Reporter_ptr (p : Process) : option nat * Process :=
  let s' := state_of (solar.Reporter (state p)) in
  if reporterOnce (ctx (state p))
  then (reporter_ptr p,
        {| state := s'; objects := objects p;
           reporter_ptr := reporter_ptr p |})
  else
    let a := length (objects p) in
    (Some a,
     {| state := s';
        objects := objects p ++ [{| in_ := make_chan Event 0 |}];
        reporter_ptr := Some a |}).

(** [n] calls of [Reporter()], the pointers returned oldest first. *)
Fixpoint Reporter_ptr_times (n : nat) (p : Process)
  : list (option nat) * Process :=
  match n with
  | O => ([], p)
  | S n' =>
      let '(a, p1) := Reporter_ptr p in
      let '(more, p2) := Reporter_ptr_times n' p1 in
      (a :: more, p2)
  end.

(** The object a pointer points to. *)
Definition deref (p : Process) (a : option nat) : option events :=
  match a with
  | Some i => objects p !! i
  | None => None
  end.

(** The identifiers of the placeholders among the tokens. *)
Fixpoint names (toks : list varstr.token) : list string :=
  match toks with
  | [] => []
  | varstr.Text _ :: rest => names rest
  | varstr.Name name :: rest => name :: names rest
  end.

End Calls.

(** ** A concrete world

    Endpoints are kept as their text and parse when they start with
    ["http://"]; every repository file but ["missing.json"] opens and holds
    the contract [Token]; the constructors record what they were given. *)
Module Example.

Inductive deployer : Type :=
| SICashDeployer (rpcURL : string) (r : option contract.ContractsRepository)
    (sender : string)
| EthDeployer (rpcURL : string) (r : option contract.ContractsRepository).

Definition theRepo : contract.ContractsRepository :=
  {| contract.contracts := {[ "Token" := {| contract.Address := "ABC" |} ]} |}.

Definition world (cwd : string + error) : Externals :=
  {| URL := string;
     Deployer := deployer;
     Event := nat;
     url_ParseRequestURI rawurl :=
       if String.prefix "http://" rawurl then inl rawurl
       else inr "invalid URI for request";
     os_Getwd := cwd;
     contract_OpenContractsRepository path :=
       if String.eqb path "missing.json"
       then inr "no such file or directory"
       else inl theRepo;
     contract_bytesPrefix := "0x";
     sicash_NewDeployer rpcURL r sender :=
       (Some (SICashDeployer rpcURL r sender), None);
     eth_NewDeployer rpcURL r := (Some (EthDeployer rpcURL r), None) |}.

Definition home : Externals := world (inl "/home/solar/project").

Definition onlySICash : Flags :=
  {| sicashRPC := "http://sicash:3889"; sicashSenderAddress := "sender";
     ethRPC := ""; solarEnv := "staging"; solarRepo := "";
     solcOptimize := true; solcAllowPaths := "" |}.

Definition onlyEth : Flags :=
  {| sicashRPC := ""; sicashSenderAddress := "";
     ethRPC := "http://geth:8545"; solarEnv := "staging";
     solarRepo := "repo.json";
     solcOptimize := true; solcAllowPaths := "lib,vendor" |}.

Definition bothEndpoints : Flags :=
  {| sicashRPC := "http://sicash:3889"; sicashSenderAddress := "sender";
     ethRPC := "http://geth:8545"; solarEnv := "development";
     solarRepo := "";
     solcOptimize := true; solcAllowPaths := "" |}.

End Example.

(** Further configurations of the concrete world: a repository file that
    does not open, endpoints with neither scheme nor leading slash, which
    do not parse, constructors that return an error beside the deployer,
    and a table of tasks. *)
Module Scenario.
Import Example.

Definition missingRepo : Flags :=
  {| sicashRPC := "http://sicash:3889"; sicashSenderAddress := "sender";
     ethRPC := ""; solarEnv := "staging"; solarRepo := "missing.json";
     solcOptimize := true; solcAllowPaths := "" |}.

Definition badSICash : Flags :=
  {| sicashRPC := "sicash-node"; sicashSenderAddress := "sender";
     ethRPC := "http://geth:8545"; solarEnv := "staging"; solarRepo := "";
     solcOptimize := true; solcAllowPaths := "" |}.

Definition badEth : Flags :=
  {| sicashRPC := "http://sicash:3889"; sicashSenderAddress := "sender";
     ethRPC := "geth-node"; solarEnv := "staging"; solarRepo := "";
     solcOptimize := false; solcAllowPaths := "" |}.

Definition onlyBadEth : Flags :=
  {| sicashRPC := ""; sicashSenderAddress := "";
     ethRPC := "geth-node"; solarEnv := "staging"; solarRepo := "";
     solcOptimize := false; solcAllowPaths := "" |}.

Definition refusing : Externals :=
  {| URL := string;
     Deployer := deployer;
     Event := nat;
     url_ParseRequestURI := url_ParseRequestURI (Externals := home);
     os_Getwd := os_Getwd (Externals := home);
     contract_OpenContractsRepository :=
       contract_OpenContractsRepository (Externals := home);
     contract_bytesPrefix := "0x";
     sicash_NewDeployer rpcURL r sender :=
       (Some (SICashDeployer rpcURL r sender), Some "connection refused");
     eth_NewDeployer rpcURL r :=
       (Some (EthDeployer rpcURL r), Some "connection refused") |}.

Definition newRPC (rawurl : string) : string + error :=
  if String.prefix "http://" rawurl then inl rawurl
  else inr "invalid URI for request".

Definition deployCalls : list call :=
  [DoRPCPlatform; DoDeployer; DoExpandJSONParams "addr=$Token";
   DoReporter; DoSICashRPC; DoContractsRepository; DoReporter].

Definition failing : M (Ext := home) (option error) :=
  solar.Reporter ;; mret (Some "deploy failed").

Definition tasks (fl : Flags) : gmap string (M (Ext := home) (option error)) :=
  {[ "deploy" := task_of (Ext := home) newRPC fl deployCalls;
     "fail" := failing ]}.

End Scenario.

(** * Properties *)

(** ** Strings *)

Lemma is_empty_true (s : string) : is_empty s = true <-> s = "".
Proof. destruct s; simpl; split; congruence. Qed.

Lemma is_empty_false (s : string) : is_empty s = false <-> s <> "".
Proof. destruct s; simpl; split; congruence. Qed.

Lemma append_assoc (a b c : string) : (a +:+ b) +:+ c = a +:+ (b +:+ c).
Proof.
  induction a as [|x a IH]; [reflexivity|].
  change (String x ((a +:+ b) +:+ c) = String x (a +:+ (b +:+ c))).
  now f_equal.
Qed.

Lemma append_nil_r (a : string) : a +:+ "" = a.
Proof.
  induction a as [|x a IH]; [reflexivity|].
  change (String x (a +:+ "") = String x a). now f_equal.
Qed.

Lemma strings_Split_nonempty (s : string) (sep : ascii) :
  strings_Split s sep <> [].
Proof.
  destruct s as [|a rest]; simpl; [discriminate|].
  destruct (Ascii.eqb a sep); [discriminate|].
  destruct (strings_Split rest sep); discriminate.
Qed.

(** Joining the fields with the separator gives the string back. *)
Lemma strings_Join_Split (s : string) (sep : ascii) :
  strings_Join (strings_Split s sep) sep = s.
Proof.
  induction s as [|a rest IH]; simpl; [reflexivity|].
  destruct (Ascii.eqb_spec a sep) as [->|Hne].
  - pose proof (strings_Split_nonempty rest sep) as Hnil.
    destruct (strings_Split rest sep) as [|field fields] eqn:E;
      [congruence|].
    simpl in *. now rewrite IH.
  - pose proof (strings_Split_nonempty rest sep) as Hnil.
    destruct (strings_Split rest sep) as [|field fields] eqn:E;
      [congruence|].
    destruct fields as [|field' fields']; simpl in *; now rewrite <- IH.
Qed.

(** There is one field more than there are separators. *)
Lemma strings_Split_length (s : string) (sep : ascii) :
  length (strings_Split s sep) = S (strings_Count s sep).
Proof.
  induction s as [|a rest IH]; simpl; [reflexivity|].
  pose proof (strings_Split_nonempty rest sep) as Hnil.
  destruct (Ascii.eqb a sep); simpl; [now rewrite IH|].
  destruct (strings_Split rest sep) as [|field fields];
    [congruence|exact IH].
Qed.

(** No field holds the separator. *)
Lemma strings_Split_fields (s : string) (sep : ascii) :
  Forall (fun field => strings_Count field sep = 0) (strings_Split s sep).
Proof.
  induction s as [|a rest IH]; simpl.
  - repeat constructor.
  - pose proof (strings_Split_nonempty rest sep) as Hnil.
    destruct (Ascii.eqb a sep) eqn:E.
    + constructor; [reflexivity|exact IH].
    + destruct (strings_Split rest sep) as [|field fields];
        [congruence|].
      inversion IH as [|? ? Hfield Hfields]; subst.
      constructor; [|exact Hfields].
      simpl. now rewrite E.
Qed.

(** A string without the separator is its own single field. *)
Lemma strings_Split_no_sep (s : string) (sep : ascii) :
  strings_Count s sep = 0 -> strings_Split s sep = [s].
Proof.
  induction s as [|a rest IH]; simpl; [reflexivity|].
  destruct (Ascii.eqb a sep); simpl; [discriminate|].
  intros H. now rewrite (IH H).
Qed.

(** ** The repository accessor *)

Section RepositoryFacts.
Context `{Ext : Externals}.

(** The path computed by the code is the path of the spec's wording. *)
Lemma repoFilePath_refines (fl : Flags) :
  (if negb (is_empty (solarRepo fl)) then solarRepo fl
   else fmt_Sprintf "solar." (solarEnv fl) ".json")
  = repoFilePath_spec fl.
Proof.
  unfold repoFilePath_spec, fmt_Sprintf.
  destruct (solarRepo fl); reflexivity.
Qed.

Lemma ContractsRepository_done (fl : Flags) (s : State) :
  repoOnce (ctx s) = true ->
  solar.ContractsRepository fl s = Returned (repo (ctx s)) s.
Proof.
  intros Hdone.
  unfold solar.ContractsRepository, mbind, outcome_bind, bind, Once_Do.
  now rewrite Hdone.
Qed.

Lemma ContractsRepository_fresh (fl : Flags) (s : State) :
  repoOnce (ctx s) = false ->
  solar.ContractsRepository fl s =
    match contract_OpenContractsRepository (repoFilePath_spec fl) with
    | inl r => Returned (Some r) (opened_state s (repoFilePath_spec fl) r)
    | inr err => Exited 1 (failed_state s (repoFilePath_spec fl) err)
    end.
Proof.
  intros Hfresh.
  unfold solar.ContractsRepository, mbind, outcome_bind, bind, Once_Do.
  rewrite Hfresh, repoFilePath_refines.
  cbn.
  destruct (contract_OpenContractsRepository (repoFilePath_spec fl));
    reflexivity.
Qed.

End RepositoryFacts.

(** ** Traces *)

Section TraceFacts.
Context `{Ext : Externals}.

Lemma opened_app (t u : list Effect) :
  opened (t ++ u) = (opened t ++ opened u)%list.
Proof.
  induction t as [|e t IH]; simpl; [reflexivity|].
  destruct e; simpl; now rewrite IH.
Qed.

Lemma constructions_app (t u : list Effect) :
  constructions (t ++ u) = constructions t + constructions u.
Proof.
  induction t as [|e t IH]; simpl; [reflexivity|].
  destruct e; simpl; now rewrite IH.
Qed.

End TraceFacts.

(** ** The expansion of placeholders *)

Section ExpansionFacts.
Context `{Ext : Externals}.

Lemma expandKey_found (r : contract.ContractsRepository) (key : string)
  (s : State) :
  snd (contract.Get r key) = true ->
  solar.expandKey (Some r) key s =
    Returned (render (formatBytesWithPrefix s) r (varstr.Name key)) s.
Proof.
  unfold solar.expandKey. simpl.
  destruct (contract.Get r key) as [k found]. simpl.
  now intros ->.
Qed.

Lemma expandKey_missing (r : contract.ContractsRepository) (key : string)
  (s : State) :
  snd (contract.Get r key) = false ->
  solar.expandKey (Some r) key s =
    Panicked (errors_Errorf "Invalid address expansion: " key) s.
Proof.
  unfold solar.expandKey.
  destruct (contract.Get r key) as [k found]. simpl.
  now intros ->.
Qed.

Lemma render_all_app (b : bool) (r : contract.ContractsRepository)
  (pre post : list varstr.token) :
  render_all b r (pre ++ post) = render_all b r pre +:+ render_all b r post.
Proof.
  induction pre as [|t pre IH]; [reflexivity|].
  change (render b r t +:+ render_all b r (pre ++ post)
          = (render b r t +:+ render_all b r pre) +:+ render_all b r post).
  now rewrite IH, append_assoc.
Qed.

Lemma all_found_app (r : contract.ContractsRepository)
  (pre post : list varstr.token) :
  all_found r (pre ++ post) = all_found r pre && all_found r post.
Proof.
  induction pre as [|t pre IH]; [reflexivity|].
  destruct t as [text|name]; simpl; [exact IH|].
  now rewrite IH, andb_assoc.
Qed.

(** With every placeholder known, the expansion is the rendering of the
    tokens, and the state is left as it was. *)
Lemma expand_tokens_found (r : contract.ContractsRepository)
  (toks : list varstr.token) (s : State) :
  all_found r toks = true ->
  varstr.expand_tokens toks (solar.expandKey (Some r)) s =
    Returned (render_all (formatBytesWithPrefix s) r toks) s.
Proof.
  induction toks as [|t rest IH]; intros Hall; [reflexivity|].
  destruct t as [text|name]; simpl in Hall |- *.
  - unfold mbind, outcome_bind, bind. now rewrite (IH Hall).
  - apply andb_true_iff in Hall as [Hname Hrest].
    unfold mbind, outcome_bind, bind.
    rewrite (expandKey_found _ _ _ Hname), (IH Hrest). reflexivity.
Qed.

(** A known placeholder is replaced and the rest is expanded after it. *)
Lemma expand_tokens_continue (r : contract.ContractsRepository)
  (pre post : list varstr.token) (s : State) :
  all_found r pre = true ->
  varstr.expand_tokens (pre ++ post) (solar.expandKey (Some r)) s =
    (out ← varstr.expand_tokens post (solar.expandKey (Some r));
     mret (render_all (formatBytesWithPrefix s) r pre +:+ out)) s.
Proof.
  induction pre as [|t rest IH]; intros Hall; simpl.
  - unfold mbind, outcome_bind, bind.
    destruct (varstr.expand_tokens post _ s); reflexivity.
  - destruct t as [text|name]; simpl in Hall |- *.
    + unfold mbind, outcome_bind, bind in IH |- *.
      rewrite (IH Hall).
      destruct (varstr.expand_tokens post _ s) as [out s'| |];
        try reflexivity.
      unfold mret, outcome_ret, ret.
      now rewrite append_assoc.
    + apply andb_true_iff in Hall as [Hname Hrest].
      unfold mbind, outcome_bind, bind in IH |- *.
      rewrite (expandKey_found _ _ _ Hname), (IH Hrest).
      destruct (varstr.expand_tokens post _ s) as [out s'| |];
        try reflexivity.
      unfold mret, outcome_ret, ret. simpl.
      now rewrite append_assoc.
Qed.

(** The first unknown placeholder ends the expansion with its panic. *)
Lemma expand_tokens_missing (r : contract.ContractsRepository)
  (pre post : list varstr.token) (key : string) (s : State) :
  all_found r pre = true ->
  snd (contract.Get r key) = false ->
  varstr.expand_tokens (pre ++ varstr.Name key :: post)
    (solar.expandKey (Some r)) s =
    Panicked (errors_Errorf "Invalid address expansion: " key) s.
Proof.
  intros Hpre Hkey.
  rewrite (expand_tokens_continue _ _ _ _ Hpre). simpl.
  unfold mbind, outcome_bind, bind.
  now rewrite (expandKey_missing _ _ _ Hkey).
Qed.

(** Once the accessor has returned, the call is the expansion of the
    scanned template. *)
Lemma ExpandJSONParams_after_repository (fl : Flags) (jsonParams : string)
  (s s1 : State) (r : option contract.ContractsRepository) :
  solar.ContractsRepository fl s = Returned r s1 ->
  solar.ExpandJSONParams fl jsonParams s
  = varstr.expand_tokens (varstr.scan jsonParams) (solar.expandKey r) s1.
Proof.
  intros Hrepo.
  unfold solar.ExpandJSONParams, varstr.Expand, mbind, outcome_bind, bind.
  now rewrite Hrepo.
Qed.

(** The expansion never changes the state of the process. *)
Lemma expand_tokens_state (r : option contract.ContractsRepository)
  (toks : list varstr.token) (s : State) :
  state_of (varstr.expand_tokens toks (solar.expandKey r) s) = s.
Proof.
  induction toks as [|t rest IH]; [reflexivity|].
  destruct t as [text|name]; simpl; unfold mbind, outcome_bind, bind.
  - destruct (varstr.expand_tokens rest _ s); simpl in *; congruence.
  - unfold solar.expandKey at 1.
    destruct r as [r|]; [|reflexivity].
    destruct (contract.Get r name) as [k [|]]; simpl; [|reflexivity].
    destruct (varstr.expand_tokens rest _ s); simpl in *; congruence.
Qed.

End ExpansionFacts.

(** ** The platform resolver *)

Section Claims.
Context `{Ext : Externals}.

(** C4: when the sicash endpoint is set, [RPCPlatform()] returns [RPCSICash]
    whatever the eth endpoint is; when only the eth endpoint is set it
    returns [RPCEthereum].  Nothing else happens in either case. *)
Theorem RPCPlatform_priority (fl : Flags) (s : State) :
  (sicashRPC fl <> "" -> solar.RPCPlatform fl s = Returned RPCSICash s) /\
  (sicashRPC fl = "" -> ethRPC fl <> "" ->
   solar.RPCPlatform fl s = Returned RPCEthereum s).
Proof.
  unfold solar.RPCPlatform, mbind, outcome_bind, bind.
  split.
  - intros Ha. apply is_empty_false in Ha. now rewrite Ha.
  - intros Ha Hb. apply is_empty_true in Ha. apply is_empty_false in Hb.
    now rewrite Ha, Hb.
Qed.

(** C3: with both endpoints empty, [RPCPlatform()] and [Deployer()] both
    end the process through [log.Fatalln(errorUnspecifiedRPC)]: the message
    is logged, the exit code is 1, and neither returns a value. *)
Theorem unspecified_endpoint_is_fatal (fl : Flags) (s : State) :
  sicashRPC fl = "" -> ethRPC fl = "" ->
  solar.RPCPlatform fl s = Exited 1 (fatal_state s errorUnspecifiedRPC) /\
  solar.Deployer fl s = Exited 1 (fatal_state s errorUnspecifiedRPC) /\
  returned (solar.RPCPlatform fl s) = None /\
  returned (solar.Deployer fl s) = None.
Proof.
  intros Ha Hb.
  assert (solar.RPCPlatform fl s
          = Exited 1 (fatal_state s errorUnspecifiedRPC)) as HP.
  { unfold solar.RPCPlatform, mbind, outcome_bind, bind.
    now rewrite Ha, Hb. }
  assert (solar.Deployer fl s
          = Exited 1 (fatal_state s errorUnspecifiedRPC)) as HD.
  { unfold solar.Deployer, mbind, outcome_bind, bind.
    now rewrite Ha, Hb. }
  rewrite HP, HD. repeat split; reflexivity.
Qed.

(** ** The repository accessor *)

(** C5: a first call of [ContractsRepository()] opens one file: the
    override when it is not empty, whatever the environment name, and
    [solar.<env>.json] otherwise. *)
Theorem ContractsRepository_path (fl : Flags) (s : State) :
  repoOnce (ctx s) = false ->
  exists path : string,
    opened (trace (state_of (solar.ContractsRepository fl s)))
    = (opened (trace s) ++ [path])%list /\
    (solarRepo fl <> "" -> path = solarRepo fl) /\
    (solarRepo fl = "" -> path = "solar." +:+ solarEnv fl +:+ ".json").
Proof.
  intros Hfresh. exists (repoFilePath_spec fl). split.
  - rewrite (ContractsRepository_fresh fl s Hfresh).
    destruct (contract_OpenContractsRepository (repoFilePath_spec fl));
      simpl; rewrite ?opened_app; simpl; rewrite ?app_nil_r; reflexivity.
  - unfold repoFilePath_spec.
    destruct (solarRepo fl); split; congruence.
Qed.

(** ** The expansion of parameters *)

(** C10: whatever the template, a call of [ExpandJSONParams] on a context
    whose repository is not yet open opens the repository file first: the
    file is opened once, a failure to open ends the process with exit code
    1 before any expansion, and otherwise the repository is stored in the
    context with its once-flag set. *)
Theorem ExpandJSONParams_opens_repository
  (fl : Flags) (jsonParams : string) (s : State) :
  repoOnce (ctx s) = false ->
  opened (trace (state_of (solar.ExpandJSONParams fl jsonParams s)))
  = (opened (trace s) ++ [repoFilePath_spec fl])%list /\
  (forall err : error,
     contract_OpenContractsRepository (repoFilePath_spec fl) = inr err ->
     solar.ExpandJSONParams fl jsonParams s
     = Exited 1 (failed_state s (repoFilePath_spec fl) err)) /\
  (forall r : contract.ContractsRepository,
     contract_OpenContractsRepository (repoFilePath_spec fl) = inl r ->
     state_of (solar.ExpandJSONParams fl jsonParams s)
     = opened_state s (repoFilePath_spec fl) r /\
     repo (ctx (state_of (solar.ExpandJSONParams fl jsonParams s))) = Some r /\
     repoOnce (ctx (state_of (solar.ExpandJSONParams fl jsonParams s)))
     = true).
Proof.
  intros Hfresh.
  unfold solar.ExpandJSONParams, mbind, outcome_bind, bind, varstr.Expand.
  rewrite (ContractsRepository_fresh fl s Hfresh).
  destruct (contract_OpenContractsRepository (repoFilePath_spec fl))
    as [r|err].
  - rewrite expand_tokens_state. split; [|split].
    + simpl. rewrite opened_app. reflexivity.
    + intros err Herr. discriminate.
    + intros r' Hr. inversion Hr; subst. repeat split.
  - split; [|split].
    + simpl. rewrite !opened_app. simpl. now rewrite app_nil_r.
    + intros err' Herr. now inversion Herr.
    + intros r Hr. discriminate.
Qed.

(** C6: in [ExpandJSONParams], with the repository [r] at hand, a
    placeholder whose identifier the repository does not know, reached after
    known ones only, makes the call panic with the error that carries the
    identifier; a known placeholder is replaced by the rendering of its
    contract's address and the expansion goes on with what follows; with
    every placeholder known the call returns the template with each
    placeholder replaced. *)
Theorem ExpandJSONParams_placeholders
  (fl : Flags) (jsonParams : string) (s s1 : State)
  (r : contract.ContractsRepository) :
  solar.ContractsRepository fl s = Returned (Some r) s1 ->
  (forall (pre post : list varstr.token) (key : string),
     varstr.scan jsonParams = (pre ++ varstr.Name key :: post)%list ->
     all_found r pre = true ->
     (snd (contract.Get r key) = false ->
      solar.ExpandJSONParams fl jsonParams s
      = Panicked (errors_Errorf "Invalid address expansion: " key) s1) /\
     (snd (contract.Get r key) = true ->
      solar.ExpandJSONParams fl jsonParams s
      = (out ← varstr.expand_tokens post (solar.expandKey (Some r));
         mret (render_all (formatBytesWithPrefix s1) r pre
               +:+ contract.Bytes_String contract_bytesPrefix
                     (formatBytesWithPrefix s1)
                     (contract.Address (fst (contract.Get r key)))
               +:+ out)) s1)) /\
  (all_found r (varstr.scan jsonParams) = true ->
   solar.ExpandJSONParams fl jsonParams s
   = Returned (render_all (formatBytesWithPrefix s1) r
                 (varstr.scan jsonParams)) s1).
Proof.
  intros Hrepo.
  rewrite (ExpandJSONParams_after_repository _ _ _ _ _ Hrepo). split.
  - intros pre post key Hscan Hpre. rewrite Hscan. split; intros Hkey.
    + apply expand_tokens_missing; assumption.
    + replace (pre ++ varstr.Name key :: post)%list
        with ((pre ++ [varstr.Name key]) ++ post)%list
        by now rewrite <- app_assoc.
      rewrite expand_tokens_continue.
      * unfold mbind, outcome_bind, bind.
        destruct (varstr.expand_tokens post _ s1); try reflexivity.
        unfold mret, outcome_ret, ret. f_equal.
        rewrite render_all_app, append_assoc.
        change (render_all (formatBytesWithPrefix s1) r [varstr.Name key])
          with (render (formatBytesWithPrefix s1) r (varstr.Name key)
                +:+ "").
        now rewrite append_nil_r.
      * rewrite all_found_app, Hpre. simpl. now rewrite Hkey.
  - apply expand_tokens_found.
Qed.

(** ** The address format *)

(** What the code does: [ConfigureBytesOutputFormat()] calls
    [SetFormatBytesWithPrefix(true)]
    exactly when the eth endpoint is not empty, whatever the sicash endpoint
    is, and addresses are rendered with the prefix from then on; with an
    empty eth endpoint it does nothing, so that addresses stay without
    prefix when the toggle was off.  When the sicash endpoint is empty, the
    eth endpoint is not empty exactly when [RPCPlatform()] returns
    [RPCEthereum]. *)
Theorem ConfigureBytesOutputFormat_follows_eth_endpoint
  (fl : Flags) (s : State) :
  (ethRPC fl <> "" ->
   solar.ConfigureBytesOutputFormat fl s = Returned tt (format_state s true) /\
   forall k : contract.Contract,
     Address_String k (format_state s true)
     = Returned (contract_bytesPrefix +:+ contract.Address k)
         (format_state s true)) /\
  (ethRPC fl = "" ->
   solar.ConfigureBytesOutputFormat fl s = Returned tt s /\
   (formatBytesWithPrefix s = false ->
    forall k : contract.Contract,
      Address_String k s = Returned (contract.Address k) s)) /\
  (sicashRPC fl = "" ->
   (ethRPC fl <> "" <-> solar.RPCPlatform fl s = Returned RPCEthereum s)).
Proof.
  unfold solar.ConfigureBytesOutputFormat. split; [|split].
  - intros Hb. apply is_empty_false in Hb. rewrite Hb. split; reflexivity.
  - intros Hb. rewrite Hb. split; [reflexivity|].
    intros Hoff k. unfold Address_String. now rewrite Hoff.
  - intros Ha. split.
    + intros Hb. apply is_empty_false in Hb.
      unfold solar.RPCPlatform, mbind, outcome_bind, bind.
      now rewrite Ha, Hb.
    + unfold solar.RPCPlatform, mbind, outcome_bind, bind. rewrite Ha.
      destruct (ethRPC fl); simpl; [discriminate|congruence].
Qed.

(** C7: with at most one endpoint set, [ConfigureBytesOutputFormat()]
    switches the prefix on exactly when [RPCPlatform()] returns
    [RPCEthereum], and otherwise leaves the state as it is.  With both
    endpoints set it switches the prefix on although [RPCPlatform()]
    returns [RPCSICash]: there the prefix is on while backend B is not the
    selected platform. *)
Theorem ConfigureBytesOutputFormat_both_endpoints (fl : Flags) (s : State) :
  (sicashRPC fl = "" \/ ethRPC fl = "" ->
   (solar.ConfigureBytesOutputFormat fl s = Returned tt (format_state s true)
    <-> solar.RPCPlatform fl s = Returned RPCEthereum s) /\
   (solar.RPCPlatform fl s <> Returned RPCEthereum s ->
    solar.ConfigureBytesOutputFormat fl s = Returned tt s)) /\
  (sicashRPC fl <> "" -> ethRPC fl <> "" ->
   solar.RPCPlatform fl s = Returned RPCSICash s /\
   solar.ConfigureBytesOutputFormat fl s = Returned tt (format_state s true) /\
   formatBytesWithPrefix
     (state_of (solar.ConfigureBytesOutputFormat fl s)) = true).
Proof.
  assert (Returned tt s <> Returned tt (format_state s true)) as Hdiff.
  { intros [= Hs]. apply (f_equal (fun x => length (trace x))) in Hs.
    cbn in Hs. rewrite length_app in Hs. cbn in Hs. lia. }
  unfold solar.ConfigureBytesOutputFormat, solar.RPCPlatform,
    mbind, outcome_bind, bind.
  split.
  - intros Hone.
    destruct (sicashRPC fl) as [|a ra], (ethRPC fl) as [|b rb]; cbn.
    + split; [split; [intros H; now destruct Hdiff|discriminate]|].
      reflexivity.
    + split; [split; reflexivity|]. intros H. now destruct H.
    + split; [split; [intros H; now destruct Hdiff|discriminate]|].
      reflexivity.
    + destruct Hone; discriminate.
  - intros Ha Hb. apply is_empty_false in Ha. apply is_empty_false in Hb.
    rewrite Ha, Hb. repeat split.
Qed.

(** ** The deployer factory *)

(** C1: with both endpoints set and well formed, [Deployer()] on a fresh
    context opens the repository, calls [sicash.NewDeployer], then calls
    [eth.NewDeployer], and its outcome is decided by the results of
    [eth.NewDeployer] alone: what [sicash.NewDeployer] returned is
    overwritten. *)
Theorem Deployer_both_endpoints (fl : Flags) (s : State) (ua ub : URL)
  (r0 : contract.ContractsRepository) :
  sicashRPC fl <> "" -> ethRPC fl <> "" ->
  url_ParseRequestURI (sicashRPC fl) = inl ua ->
  url_ParseRequestURI (ethRPC fl) = inl ub ->
  repoOnce (ctx s) = false ->
  contract_OpenContractsRepository (repoFilePath_spec fl) = inl r0 ->
  solar.Deployer fl s =
    Deployer_verdict (eth_NewDeployer ub (Some r0))
      (after (opened_state s (repoFilePath_spec fl) r0)
         [CallSICashNewDeployer ua (Some r0) (sicashSenderAddress fl);
          CallEthNewDeployer ub (Some r0)]).
Proof.
  intros Ha Hb Hua Hub Hfresh Hopen.
  apply is_empty_false in Ha. apply is_empty_false in Hb.
  unfold solar.Deployer, mbind, outcome_bind, bind.
  rewrite Ha, Hb, Hua, Hub. cbn [negb].
  rewrite (ContractsRepository_fresh fl s Hfresh), Hopen.
  cbn [emit].
  destruct (sicash_NewDeployer ua (Some r0) (sicashSenderAddress fl))
    as [da ea].
  unfold mret, outcome_ret, ret. cbn beta iota.
  rewrite ContractsRepository_done by reflexivity. cbn.
  unfold Deployer_verdict, after, log_Fatalln, log_Fatalf,
    mbind, outcome_bind, bind.
  destruct (eth_NewDeployer ub (Some r0)) as [[d|] [e|]]; cbn;
    rewrite <- ?app_assoc; reflexivity.
Qed.

(** One call of [Deployer()] with the sicash endpoint alone: a construction
    call is made, and the memo fields of the context are left alone. *)
Lemma Deployer_sicash_only (fl : Flags) (s : State) (ua : URL)
  (r0 : contract.ContractsRepository) :
  sicashRPC fl <> "" -> ethRPC fl = "" ->
  url_ParseRequestURI (sicashRPC fl) = inl ua ->
  contract_OpenContractsRepository (repoFilePath_spec fl) = inl r0 ->
  (forall r, exists d,
     sicash_NewDeployer ua r (sicashSenderAddress fl) = (Some d, None)) ->
  exists (d : Deployer) (s' : State),
    solar.Deployer fl s = Returned (Some d) s' /\
    constructions (trace s') = S (constructions (trace s)) /\
    depoyer (ctx s') = depoyer (ctx s) /\
    deployerOnce (ctx s') = deployerOnce (ctx s).
Proof.
  intros Ha Hb Hua Hopen Hnew.
  apply is_empty_false in Ha.
  unfold solar.Deployer, mbind, outcome_bind, bind, mret, outcome_ret, ret.
  rewrite Ha, Hb, Hua. cbn [negb is_empty].
  destruct (repoOnce (ctx s)) eqn:Hdone.
  - rewrite (ContractsRepository_done fl s Hdone). cbn [emit].
    destruct (Hnew (repo (ctx s))) as [d Hd]. rewrite Hd. cbn.
    eexists _, _. split; [reflexivity|]. cbn.
    rewrite constructions_app. cbn. repeat split. lia.
  - rewrite (ContractsRepository_fresh fl s Hdone), Hopen. cbn [emit].
    destruct (Hnew (Some r0)) as [d Hd]. cbn. rewrite Hd. cbn.
    eexists _, _. split; [reflexivity|]. cbn.
    rewrite !constructions_app. cbn. repeat split. lia.
Qed.

(** C2: with the sicash endpoint alone, [n] calls of [Deployer()] return
    [n] deployers after [n] calls of [sicash.NewDeployer], one for each
    call; the fields [depoyer] and [deployerOnce] of the context are never
    written. *)
Theorem Deployer_constructs_at_each_call (fl : Flags) (ua : URL)
  (r0 : contract.ContractsRepository) (n : nat) (s : State) :
  sicashRPC fl <> "" -> ethRPC fl = "" ->
  url_ParseRequestURI (sicashRPC fl) = inl ua ->
  contract_OpenContractsRepository (repoFilePath_spec fl) = inl r0 ->
  (forall r, exists d,
     sicash_NewDeployer ua r (sicashSenderAddress fl) = (Some d, None)) ->
  exists (ds : list (option Deployer)) (s' : State),
    Deployer_times fl n s = Returned ds s' /\
    length ds = n /\
    constructions (trace s') = constructions (trace s) + n /\
    depoyer (ctx s') = depoyer (ctx s) /\
    deployerOnce (ctx s') = deployerOnce (ctx s).
Proof.
  intros Ha Hb Hua Hopen Hnew. revert s.
  induction n as [|n IH]; intros s.
  - exists [], s. cbn. repeat split. lia.
  - destruct (Deployer_sicash_only fl s ua r0 Ha Hb Hua Hopen Hnew)
      as (d & s1 & Hcall & Hcount & Hmemo & Honce).
    destruct (IH s1) as (ds & s' & Hrest & Hlen & Hcount' & Hmemo' & Honce').
    exists (Some d :: ds), s'.
    cbn [Deployer_times]. unfold mbind, outcome_bind, bind.
    rewrite Hcall, Hrest. cbn.
    repeat split; [lia|lia|congruence|congruence].
Qed.

(** ** The compiler options *)

(** C8: with a non-empty allow-paths setting, [SolcOptions()] returns the
    options whose [AllowPaths] is the setting split at its commas: fields
    without comma, one more than there are commas, which joined by commas
    give the setting back; with an empty setting and a working directory
    that holds no comma, the options whose [AllowPaths] is that directory
    alone; with an empty setting and no working directory, no options and
    the wrapped error.  Returned options have [NoOptimize] the negation of
    the optimizer flag. *)
Theorem SolcOptions_result (fl : Flags) :
  (solcAllowPaths fl <> "" ->
   solar.SolcOptions fl
   = (Some {| NoOptimize := negb (solcOptimize fl);
              AllowPaths := strings_Split (solcAllowPaths fl) "," |}, None) /\
   strings_Join (strings_Split (solcAllowPaths fl) ",") ","
   = solcAllowPaths fl /\
   length (strings_Split (solcAllowPaths fl) ",")
   = S (strings_Count (solcAllowPaths fl) ",") /\
   Forall (fun field => strings_Count field "," = 0)
     (strings_Split (solcAllowPaths fl) ",")) /\
  (solcAllowPaths fl = "" ->
   forall cwd : string,
     os_Getwd = inl cwd -> strings_Count cwd "," = 0 ->
     solar.SolcOptions fl
     = (Some {| NoOptimize := negb (solcOptimize fl);
                AllowPaths := [cwd] |}, None)) /\
  (solcAllowPaths fl = "" ->
   forall err : error,
     os_Getwd = inr err ->
     solar.SolcOptions fl = (None, Some (errors_Wrap err "solc options"))).
Proof.
  unfold solar.SolcOptions. split; [|split].
  - intros H. apply is_empty_false in H. rewrite H.
    split; [reflexivity|]. split; [apply strings_Join_Split|].
    split; [apply strings_Split_length|apply strings_Split_fields].
  - intros H cwd Hcwd Hcomma. rewrite H, Hcwd. cbn.
    now rewrite (strings_Split_no_sep cwd "," Hcomma).
  - intros H err Herr. now rewrite H, Herr.
Qed.

(** ** The reporter *)

(** Every state of the reporter keeps the channel without buffer. *)
Lemma reporter_invariant (e : events) :
  reporter_reachable e ->
  cap (in_ e) = 0 /\ buf (in_ e) = [] /\ recvq (in_ e) <= 1.
Proof.
  induction 1 as [|e e' v Hreach IH Hsend|e Hreach IH Hidle].
  - cbn. repeat split. lia.
  - destruct IH as (Hcap & Hbuf & Hq).
    unfold events_report, chan_send in Hsend.
    destruct (recvq (in_ e)) as [|waiting] eqn:Hw.
    + rewrite Hcap, Hbuf in Hsend. cbn in Hsend. discriminate.
    + inversion Hsend; subst. cbn. repeat split; [assumption..|lia].
  - destruct IH as (Hcap & Hbuf & Hq).
    unfold events_drain, chan_recv. rewrite Hbuf. cbn.
    repeat split; [assumption|lia].
Qed.

(** C9: [Reporter()] on a fresh context makes the reporter with a channel
    of capacity 0, and in every state of that reporter the channel holds no
    event and [report] blocks the caller exactly when the drain task is not
    parked in its receive. *)
Theorem Reporter_channel_is_unbuffered (s : State) (e : events) :
  reporterOnce (ctx s) = false ->
  reporter_reachable e ->
  returned (solar.Reporter s) = Some (Some newEvents) /\
  cap (in_ newEvents) = 0 /\
  cap (in_ e) = 0 /\ buf (in_ e) = [] /\
  forall v : Event, events_report e v = None <-> recvq (in_ e) = 0.
Proof.
  intros Hfresh Hreach.
  destruct (reporter_invariant e Hreach) as (Hcap & Hbuf & Hq).
  repeat split; try assumption.
  - unfold solar.Reporter, mbind, outcome_bind, bind, Once_Do.
    now rewrite Hfresh.
  - unfold events_report, chan_send.
    destruct (recvq (in_ e)); [reflexivity|discriminate].
  - intros Hw. unfold events_report, chan_send.
    rewrite Hw, Hcap, Hbuf. reflexivity.
Qed.

End Claims.

(** * The properties at work in the concrete world *)

Section Instances.
Import Example.
Existing Instance home.

Lemma RPCPlatform_priority_witness :
  solar.RPCPlatform bothEndpoints State0 = Returned RPCSICash State0 /\
  solar.RPCPlatform onlySICash State0 = Returned RPCSICash State0 /\
  solar.RPCPlatform onlyEth State0 = Returned RPCEthereum State0.
Proof.
  split; [|split].
  - apply (proj1 (RPCPlatform_priority bothEndpoints State0)). discriminate.
  - apply (proj1 (RPCPlatform_priority onlySICash State0)). discriminate.
  - apply (proj2 (RPCPlatform_priority onlyEth State0));
      [reflexivity|discriminate].
Defined.

Lemma unspecified_endpoint_is_fatal_witness :
  solar.RPCPlatform defaultFlags State0
  = Exited 1 (fatal_state State0 errorUnspecifiedRPC) /\
  solar.Deployer defaultFlags State0
  = Exited 1 (fatal_state State0 errorUnspecifiedRPC) /\
  returned (solar.RPCPlatform defaultFlags State0) = None /\
  returned (solar.Deployer defaultFlags State0) = None.
Proof.
  apply (unspecified_endpoint_is_fatal defaultFlags State0); reflexivity.
Defined.

Lemma ContractsRepository_path_witness :
  (exists path : string,
     opened (trace (state_of (solar.ContractsRepository onlySICash State0)))
     = [path] /\ path = "solar.staging.json") /\
  (exists path : string,
     opened (trace (state_of (solar.ContractsRepository onlyEth State0)))
     = [path] /\ path = "repo.json").
Proof.
  split.
  - destruct (ContractsRepository_path onlySICash State0 eq_refl)
      as (path & Hopened & _ & Hdefault).
    exists path. split; [exact Hopened|]. apply Hdefault. reflexivity.
  - destruct (ContractsRepository_path onlyEth State0 eq_refl)
      as (path & Hopened & Hoverride & _).
    exists path. split; [exact Hopened|]. apply Hoverride. discriminate.
Defined.

Lemma ExpandJSONParams_opens_repository_witness :
  opened (trace (state_of
            (solar.ExpandJSONParams onlySICash "no vars here" State0)))
  = ["solar.staging.json"] /\
  repoOnce (ctx (state_of
                   (solar.ExpandJSONParams onlySICash "no vars here" State0)))
  = true.
Proof.
  destruct (ExpandJSONParams_opens_repository onlySICash "no vars here"
              State0 eq_refl) as (Hopened & _ & Hstored).
  split; [exact Hopened|].
  exact (proj2 (proj2 (Hstored theRepo eq_refl))).
Defined.

Lemma ExpandJSONParams_placeholders_witness :
  solar.ExpandJSONParams onlySICash "addr=$Missing" State0
  = Panicked "Invalid address expansion: Missing"
      (opened_state State0 "solar.staging.json" theRepo) /\
  solar.ExpandJSONParams onlySICash "addr=${Token}" State0
  = Returned "addr=ABC" (opened_state State0 "solar.staging.json" theRepo).
Proof.
  assert (solar.ContractsRepository onlySICash State0
          = Returned (Some theRepo)
              (opened_state State0 "solar.staging.json" theRepo)) as Hrepo
    by reflexivity.
  split.
  - apply (proj1 (ExpandJSONParams_placeholders onlySICash "addr=$Missing"
                    State0 _ theRepo Hrepo)
             (varstr.scan "addr=") [] "Missing");
      reflexivity.
  - apply (proj2 (ExpandJSONParams_placeholders onlySICash "addr=${Token}"
                    State0 _ theRepo Hrepo)).
    reflexivity.
Defined.

Lemma ConfigureBytesOutputFormat_follows_eth_endpoint_witness :
  solar.ConfigureBytesOutputFormat onlyEth State0
  = Returned tt (format_state State0 true) /\
  solar.ConfigureBytesOutputFormat onlySICash State0 = Returned tt State0 /\
  Address_String {| contract.Address := "ABC" |} (format_state State0 true)
  = Returned "0xABC" (format_state State0 true) /\
  Address_String {| contract.Address := "ABC" |} State0
  = Returned "ABC" State0.
Proof.
  pose proof (ConfigureBytesOutputFormat_follows_eth_endpoint
                onlyEth State0) as (Hon & _ & _).
  pose proof (ConfigureBytesOutputFormat_follows_eth_endpoint
                onlySICash State0) as (_ & Hoff & _).
  destruct Hon as (Hset & Hwith); [discriminate|].
  destruct Hoff as (Hskip & Hwithout); [reflexivity|].
  split; [exact Hset|]. split; [exact Hskip|].
  split; [apply Hwith|apply Hwithout; reflexivity].
Defined.

(** With both endpoints set the resolver selects [RPCSICash], and yet the
    prefix is switched on. *)
Lemma ConfigureBytesOutputFormat_prefix_under_sicash :
  solar.RPCPlatform bothEndpoints State0 = Returned RPCSICash State0 /\
  formatBytesWithPrefix
    (state_of (solar.ConfigureBytesOutputFormat bothEndpoints State0))
  = true /\
  ~ (formatBytesWithPrefix
       (state_of (solar.ConfigureBytesOutputFormat bothEndpoints State0))
     = true <->
     solar.RPCPlatform bothEndpoints State0 = Returned RPCEthereum State0).
Proof.
  split; [reflexivity|]. split; [reflexivity|].
  intros [Hif _]. specialize (Hif eq_refl). discriminate.
Qed.

Lemma Deployer_both_endpoints_witness :
  returned (solar.Deployer bothEndpoints State0)
  = Some (Some (EthDeployer "http://geth:8545" (Some theRepo))) /\
  returned (solar.Deployer bothEndpoints State0)
  <> Some (Some (SICashDeployer "http://sicash:3889" (Some theRepo)
                   "sender")) /\
  constructions (trace (state_of (solar.Deployer bothEndpoints State0))) = 2.
Proof.
  rewrite (Deployer_both_endpoints (Ext := home) bothEndpoints State0
             "http://sicash:3889" "http://geth:8545" theRepo);
    try reflexivity; try discriminate.
  split; [reflexivity|]. split; [discriminate|reflexivity].
Defined.

Lemma Deployer_constructs_at_each_call_witness :
  exists (ds : list (option Deployer)) (s' : State),
    Deployer_times onlySICash 2 State0 = Returned ds s' /\
    length ds = 2 /\
    constructions (trace s') = 2 /\
    depoyer (ctx s') = None /\
    deployerOnce (ctx s') = false.
Proof.
  apply (Deployer_constructs_at_each_call (Ext := home) onlySICash
           "http://sicash:3889" theRepo 2 State0);
    try reflexivity; try discriminate.
  intros r. eexists. reflexivity.
Defined.

Lemma SolcOptions_result_witness :
  solar.SolcOptions onlyEth
  = (Some {| NoOptimize := false; AllowPaths := ["lib"; "vendor"] |}, None) /\
  solar.SolcOptions onlySICash
  = (Some {| NoOptimize := false;
             AllowPaths := ["/home/solar/project"] |}, None) /\
  solar.SolcOptions (Ext := world (inr "getwd: no such file or directory"))
    onlySICash
  = (None, Some "solc options: getwd: no such file or directory").
Proof.
  split; [|split].
  - apply (proj1 (SolcOptions_result onlyEth)). discriminate.
  - apply (proj1 (proj2 (SolcOptions_result onlySICash)));
      reflexivity.
  - apply (proj2 (proj2 (SolcOptions_result
                           (Ext := world (inr "getwd: no such file or directory"))
                           onlySICash)));
      reflexivity.
Defined.

(** Without a working directory no options are returned; and a working
    directory with a comma in its name is cut in two. *)
Lemma SolcOptions_not_always_cwd :
  solar.SolcOptions (Ext := world (inr "getwd: no such file or directory"))
    defaultFlags
  = (None, Some "solc options: getwd: no such file or directory") /\
  solar.SolcOptions (Ext := world (inl "/srv/a,b")) defaultFlags
  = (Some {| NoOptimize := false; AllowPaths := ["/srv/a"; "b"] |}, None) /\
  solar.SolcOptions (Ext := world (inl "/srv/a,b")) defaultFlags
  <> (Some {| NoOptimize := false; AllowPaths := ["/srv/a,b"] |}, None).
Proof.
  split; [reflexivity|]. split; [reflexivity|discriminate].
Qed.

Lemma Reporter_channel_is_unbuffered_witness :
  returned (solar.Reporter State0) = Some (Some newEvents) /\
  cap (in_ newEvents) = 0 /\
  cap (in_ (events_drain newEvents)) = 0 /\
  buf (in_ (events_drain newEvents)) = [] /\
  forall v : Event,
    events_report (events_drain newEvents) v = None
    <-> recvq (in_ (events_drain newEvents)) = 0.
Proof.
  apply (Reporter_channel_is_unbuffered State0 (events_drain newEvents)).
  - reflexivity.
  - apply reach_drain; [apply reach_new|reflexivity].
Defined.

(** The reporter as [Reporter()] returns it, before the drain task has
    reached its receive: the first [report] blocks its caller. *)
Lemma Reporter_first_report_blocks :
  exists e : events,
    returned (solar.Reporter State0) = Some (Some e) /\
    cap (in_ e) = 0 /\
    events_report e 7 = None.
Proof.
  exists newEvents. repeat split.
Qed.

(** The examples of the expansion. *)
Example ExpandJSONParams_examples :
  returned (solar.ExpandJSONParams onlySICash "addr=$Token" State0)
  = Some "addr=ABC" /\
  returned (solar.ExpandJSONParams onlySICash "addr=${Token}" State0)
  = Some "addr=ABC" /\
  returned (solar.ExpandJSONParams onlySICash "no vars here" State0)
  = Some "no vars here" /\
  returned (solar.ExpandJSONParams onlySICash "addr=$Missing" State0)
  = None.
Proof. repeat split. Qed.

End Instances.

(** * The context over sequences of calls *)

Section InvariantFacts.
Context `{Ext : Externals}.

Lemma starts_app (t u : list Effect) :
  starts (t ++ u) = starts t + starts u.
Proof.
  induction t as [|e t IH]; simpl; [reflexivity|].
  destruct e; simpl; now rewrite IH.
Qed.

Lemma constructed_app (t u : list Effect) :
  constructed (t ++ u) = (constructed t ++ constructed u)%list.
Proof.
  induction t as [|e t IH]; simpl; [reflexivity|].
  destruct e; simpl; now rewrite IH.
Qed.

Lemma lazy_inv_final (fl : Flags) (s : State) :
  lazy_inv fl s -> final_inv fl s.
Proof.
  unfold lazy_inv, final_inv.
  intros (Hrepo & Hrep & Hfmt & Hd & Hdo).
  repeat split; try assumption.
  - destruct (repoOnce (ctx s)); destruct Hrepo as [-> _]; simpl; lia.
  - destruct (reporterOnce (ctx s)); destruct Hrep as [-> _]; lia.
Qed.

Lemma lazy_inv_State0 (fl : Flags) : lazy_inv fl State0.
Proof. unfold lazy_inv. cbn. repeat split. discriminate. Qed.

Lemma preserves_ret {A : Type} (fl : Flags) (a : A) : preserves fl (mret a).
Proof. intros s Hs. exact Hs. Qed.

Lemma preserves_bind {A B : Type} (fl : Flags) (m : M A) (k : A -> M B) :
  preserves fl m -> (forall a, preserves fl (k a)) ->
  preserves fl (m ≫= k).
Proof.
  intros Hm Hk s Hs. specialize (Hm s Hs).
  unfold mbind, outcome_bind, bind.
  destruct (m s) as [a s'|code s'|e s']; simpl in *; try assumption.
  now apply Hk.
Qed.

Lemma preserves_panic {A : Type} (fl : Flags) (e : error) :
  preserves (A := A) fl (panic e).
Proof. intros s Hs. exact Hs. Qed.

Lemma preserves_exit {A : Type} (fl : Flags) (code : nat) :
  preserves (A := A) fl (os_Exit code).
Proof. intros s Hs. now apply lazy_inv_final. Qed.

(** An effect that is neither the opening of the repository nor the start
    of the reporter keeps the invariant. *)
Lemma preserves_emit (fl : Flags) (e : Effect) :
  opened [e] = [] -> starts [e] = 0 -> preserves fl (emit e).
Proof.
  intros Ho Hs s (Hrepo & Hrep & Hfmt & Hd & Hdo).
  unfold emit, outcome_inv, lazy_inv. cbn.
  rewrite opened_app, starts_app, Ho, Hs, app_nil_r, Nat.add_0_r.
  repeat split; assumption.
Qed.

Lemma preserves_Fatalln {A : Type} (fl : Flags) (v : error) :
  preserves (A := A) fl (log_Fatalln v).
Proof.
  apply preserves_bind; [now apply preserves_emit|].
  intros _. apply preserves_exit.
Qed.

Lemma preserves_Fatalf {A : Type} (fl : Flags) (format : string)
  (args : list string) :
  preserves (A := A) fl (log_Fatalf format args).
Proof.
  apply preserves_bind; [now apply preserves_emit|].
  intros _. apply preserves_exit.
Qed.

Lemma preserves_and_go_on {A : Type} (fl : Flags) (m : M A) :
  preserves fl m -> preserves fl (and_go_on m).
Proof.
  intros Hm s Hs. specialize (Hm s Hs). unfold and_go_on.
  destruct (m s); exact Hm.
Qed.

Lemma preserves_RPCPlatform (fl : Flags) :
  preserves fl (solar.RPCPlatform fl).
Proof.
  unfold solar.RPCPlatform.
  apply preserves_bind.
  - destruct (_ && _); [apply preserves_Fatalln|apply preserves_ret].
  - intros _. destruct (negb _); apply preserves_ret.
Qed.

Lemma preserves_Reporter (fl : Flags) : preserves fl solar.Reporter.
Proof.
  intros s Hs. pose proof Hs as (Hrepo & Hrep & Hfmt & Hd & Hdo).
  unfold solar.Reporter, mbind, outcome_bind, bind, Once_Do.
  destruct (reporterOnce (ctx s)) eqn:Honce; cbn.
  - exact Hs.
  - destruct Hrep as [Hstarts Hnone].
    unfold lazy_inv. cbn.
    rewrite opened_app, starts_app, Hstarts, app_nil_r.
    repeat split; assumption.
Qed.

Lemma preserves_ContractsRepository (fl : Flags) :
  preserves fl (solar.ContractsRepository fl).
Proof.
  intros s Hs. pose proof Hs as (Hrepo & Hrep & Hfmt & Hd & Hdo).
  destruct (repoOnce (ctx s)) eqn:Honce.
  - rewrite (ContractsRepository_done fl s Honce). exact Hs.
  - rewrite (ContractsRepository_fresh fl s Honce).
    destruct Hrepo as [Hopened Hnone].
    destruct (contract_OpenContractsRepository (repoFilePath_spec fl))
      as [r|err]; cbn.
    + unfold lazy_inv. cbn.
      rewrite opened_app, starts_app, Hopened, Nat.add_0_r.
      repeat split; try assumption. now exists r.
    + unfold final_inv. cbn.
      rewrite !opened_app, !starts_app, Hopened. cbn.
      repeat split; try assumption; try lia.
      destruct (reporterOnce (ctx s)); destruct Hrep as [-> _]; lia.
Qed.

Lemma preserves_expand_tokens (fl : Flags)
  (r : option contract.ContractsRepository) (toks : list varstr.token) :
  preserves fl (varstr.expand_tokens toks (solar.expandKey r)).
Proof.
  intros s Hs.
  pose proof (expand_tokens_state r toks s) as Hstate.
  destruct (varstr.expand_tokens toks (solar.expandKey r) s)
    as [out s'|code s'|e s']; simpl in Hstate; subst s'; simpl;
    [exact Hs|now apply lazy_inv_final|exact Hs].
Qed.

Lemma preserves_ExpandJSONParams (fl : Flags) (jsonParams : string) :
  preserves fl (solar.ExpandJSONParams fl jsonParams).
Proof.
  unfold solar.ExpandJSONParams.
  apply preserves_bind; [apply preserves_ContractsRepository|].
  intros r. apply preserves_expand_tokens.
Qed.

Lemma preserves_ConfigureBytesOutputFormat (fl : Flags) :
  preserves fl (solar.ConfigureBytesOutputFormat fl).
Proof.
  unfold solar.ConfigureBytesOutputFormat.
  destruct (is_empty (ethRPC fl)) eqn:Heth; cbn [negb];
    [apply preserves_ret|].
  apply is_empty_false in Heth.
  intros s (Hrepo & Hrep & Hfmt & Hd & Hdo).
  unfold contract_SetFormatBytesWithPrefix, mbind, outcome_bind, bind.
  cbn. unfold lazy_inv. cbn.
  rewrite opened_app, starts_app, app_nil_r, Nat.add_0_r.
  repeat split; try assumption. intros _. exact Heth.
Qed.

Lemma preserves_Deployer (fl : Flags) : preserves fl (solar.Deployer fl).
Proof.
  unfold solar.Deployer.
  apply preserves_bind.
  { destruct (negb _); [|apply preserves_ret].
    destruct (url_ParseRequestURI _); [|apply preserves_Fatalf].
    apply preserves_bind; [apply preserves_ContractsRepository|].
    intros r. apply preserves_bind; [now apply preserves_emit|].
    intros _. apply preserves_ret. }
  intros [deployer err]. apply preserves_bind.
  { destruct (negb _); [|apply preserves_ret].
    destruct (url_ParseRequestURI _); [|apply preserves_Fatalf].
    apply preserves_bind; [apply preserves_ContractsRepository|].
    intros r. apply preserves_bind; [now apply preserves_emit|].
    intros _. apply preserves_ret. }
  intros [deployer' err']. apply preserves_bind.
  { destruct deployer'; [apply preserves_ret|apply preserves_Fatalln]. }
  intros _. apply preserves_bind.
  { destruct err'; [apply preserves_Fatalf|apply preserves_ret]. }
  intros _. apply preserves_ret.
Qed.

Lemma preserves_SICashRPC {RPC : Type}
  (sicash_NewRPC : string -> RPC + error) (fl : Flags) :
  preserves fl (solar.SICashRPC sicash_NewRPC fl).
Proof.
  unfold solar.SICashRPC.
  destruct (sicash_NewRPC (sicashRPC fl)); [apply preserves_ret|].
  apply preserves_bind; [now apply preserves_emit|].
  intros _. apply preserves_exit.
Qed.

Lemma preserves_run_call {RPC : Type}
  (sicash_NewRPC : string -> RPC + error) (fl : Flags) (c : call) :
  preserves fl (run_call sicash_NewRPC fl c).
Proof.
  destruct c; cbn [run_call]; apply preserves_and_go_on.
  - apply preserves_RPCPlatform.
  - apply preserves_Reporter.
  - apply preserves_ret.
  - apply preserves_ContractsRepository.
  - apply preserves_SICashRPC.
  - apply preserves_ExpandJSONParams.
  - apply preserves_ConfigureBytesOutputFormat.
  - apply preserves_Deployer.
Qed.

Lemma preserves_run_calls {RPC : Type}
  (sicash_NewRPC : string -> RPC + error) (fl : Flags) (cs : list call) :
  preserves fl (run_calls sicash_NewRPC fl cs).
Proof.
  induction cs as [|c rest IH]; cbn [run_calls]; [apply preserves_ret|].
  apply preserves_bind; [apply preserves_run_call|].
  intros _. exact IH.
Qed.

End InvariantFacts.

(** * The accessors and the factory, case by case *)

Section AccessorFacts.
Context `{Ext : Externals}.

Lemma Reporter_done (s : State) :
  reporterOnce (ctx s) = true ->
  solar.Reporter s = Returned (reporter (ctx s)) s.
Proof.
  intros Hdone.
  unfold solar.Reporter, mbind, outcome_bind, bind, Once_Do.
  now rewrite Hdone.
Qed.

Lemma Reporter_fresh (s : State) :
  reporterOnce (ctx s) = false ->
  solar.Reporter s = Returned (Some newEvents) (started_state s).
Proof.
  intros Hfresh.
  unfold solar.Reporter, mbind, outcome_bind, bind, Once_Do.
  now rewrite Hfresh.
Qed.

(** Calls that return the same value and leave the state alone. *)
Lemma repeatM_stable {A : Type} (m : M A) (a : A) (s : State) (n : nat) :
  m s = Returned a s ->
  repeatM m n s = Returned (replicate n a) s.
Proof.
  intros Hm. induction n as [|n IH]; [reflexivity|].
  cbn [repeatM replicate]. unfold mbind, outcome_bind, bind.
  now rewrite Hm, IH.
Qed.

(** The accessor returns from a state with the same construction calls. *)
Lemma ContractsRepository_constructed (fl : Flags) (s s1 : State)
  (r : option contract.ContractsRepository) :
  solar.ContractsRepository fl s = Returned r s1 ->
  constructed (trace s1) = constructed (trace s).
Proof.
  destruct (repoOnce (ctx s)) eqn:Honce.
  - rewrite (ContractsRepository_done fl s Honce). now intros [= _ <-].
  - rewrite (ContractsRepository_fresh fl s Honce).
    destruct (contract_OpenContractsRepository _); [|discriminate].
    intros [= _ <-]. cbn. rewrite constructed_app. cbn.
    now rewrite app_nil_r.
Qed.

Lemma Deployer_sicash_outcome (fl : Flags) (s s1 : State) (ua : URL)
  (r : option contract.ContractsRepository) :
  sicashRPC fl <> "" -> ethRPC fl = "" ->
  url_ParseRequestURI (sicashRPC fl) = inl ua ->
  solar.ContractsRepository fl s = Returned r s1 ->
  solar.Deployer fl s =
    Deployer_verdict (sicash_NewDeployer ua r (sicashSenderAddress fl))
      (after s1 [CallSICashNewDeployer ua r (sicashSenderAddress fl)]).
Proof.
  intros Ha Hb Hua Hrepo. apply is_empty_false in Ha.
  unfold solar.Deployer, mbind, outcome_bind, bind, mret, outcome_ret, ret.
  rewrite Ha, Hb, Hua. cbn [negb is_empty]. rewrite Hrepo. cbn [emit].
  unfold Deployer_verdict, after, log_Fatalln, log_Fatalf,
    mbind, outcome_bind, bind.
  destruct (sicash_NewDeployer ua r (sicashSenderAddress fl))
    as [[d|] [e|]]; reflexivity.
Qed.

Lemma Deployer_eth_outcome (fl : Flags) (s s1 : State) (ub : URL)
  (r : option contract.ContractsRepository) :
  sicashRPC fl = "" -> ethRPC fl <> "" ->
  url_ParseRequestURI (ethRPC fl) = inl ub ->
  solar.ContractsRepository fl s = Returned r s1 ->
  solar.Deployer fl s =
    Deployer_verdict (eth_NewDeployer ub r)
      (after s1 [CallEthNewDeployer ub r]).
Proof.
  intros Ha Hb Hub Hrepo. apply is_empty_false in Hb.
  unfold solar.Deployer, mbind, outcome_bind, bind, mret, outcome_ret, ret.
  rewrite Ha, Hb, Hub. cbn [negb is_empty]. rewrite Hrepo. cbn [emit].
  unfold Deployer_verdict, after, log_Fatalln, log_Fatalf,
    mbind, outcome_bind, bind.
  destruct (eth_NewDeployer ub r) as [[d|] [e|]]; reflexivity.
Qed.

(** The checks at the end of [Deployer()] call no constructor. *)
Lemma Deployer_verdict_constructed
  (result : option Deployer * option error) (s : State) :
  constructed (trace (state_of (Deployer_verdict result s)))
  = constructed (trace s).
Proof.
  destruct result as [[d|] [e|]]; cbn; rewrite ?constructed_app; cbn;
    rewrite ?app_nil_r; reflexivity.
Qed.

(** In contents: on a context whose reporter is not yet made, any number
    of calls of [Reporter()], one at least, return a reporter of the
    content made by the first, and [go c.reporter.Start()] is executed
    once. *)
Theorem Reporter_started_once (s : State) (n : nat) :
  reporterOnce (ctx s) = false ->
  repeatM solar.Reporter (S n) s
  = Returned (replicate (S n) (Some newEvents)) (started_state s) /\
  starts (trace (started_state s)) = S (starts (trace s)).
Proof.
  intros Hfresh. split.
  - cbn [repeatM replicate]. unfold mbind, outcome_bind, bind.
    rewrite (Reporter_fresh s Hfresh).
    rewrite (repeatM_stable solar.Reporter (Some newEvents)
               (started_state s) n); [reflexivity|].
    now rewrite Reporter_done.
  - cbn. rewrite starts_app. cbn. lia.
Qed.

(** X2: on a context whose repository is not yet open and with a
    repository file that opens, any number of calls of
    [ContractsRepository()], one at least, all return the repository opened
    by the first, and the file is opened once. *)
Theorem ContractsRepository_opened_once (fl : Flags) (s : State)
  (r : contract.ContractsRepository) (n : nat) :
  repoOnce (ctx s) = false ->
  contract_OpenContractsRepository (repoFilePath_spec fl) = inl r ->
  repeatM (solar.ContractsRepository fl) (S n) s
  = Returned (replicate (S n) (Some r))
      (opened_state s (repoFilePath_spec fl) r) /\
  opened (trace (opened_state s (repoFilePath_spec fl) r))
  = (opened (trace s) ++ [repoFilePath_spec fl])%list.
Proof.
  intros Hfresh Hopen. split.
  - cbn [repeatM replicate]. unfold mbind, outcome_bind, bind.
    rewrite (ContractsRepository_fresh fl s Hfresh), Hopen.
    rewrite (repeatM_stable (solar.ContractsRepository fl) (Some r)
               (opened_state s (repoFilePath_spec fl) r) n);
      [reflexivity|].
    now rewrite ContractsRepository_done.
  - cbn. now rewrite opened_app.
Qed.

(** X3: when the repository file does not open, [ContractsRepository()] on
    a context whose repository is not yet open prints the path and the
    error and exits with code 1, and so does [Deployer()] for an endpoint
    that parses, before any [NewDeployer] is called. *)
Theorem repository_open_failure_is_fatal (fl : Flags) (s : State)
  (err : error) :
  repoOnce (ctx s) = false ->
  contract_OpenContractsRepository (repoFilePath_spec fl) = inr err ->
  solar.ContractsRepository fl s
  = Exited 1 (failed_state s (repoFilePath_spec fl) err) /\
  (forall u : URL,
     (sicashRPC fl <> "" /\ url_ParseRequestURI (sicashRPC fl) = inl u) \/
     (sicashRPC fl = "" /\ ethRPC fl <> "" /\
      url_ParseRequestURI (ethRPC fl) = inl u) ->
     solar.Deployer fl s
     = Exited 1 (failed_state s (repoFilePath_spec fl) err)) /\
  constructions (trace (failed_state s (repoFilePath_spec fl) err))
  = constructions (trace s).
Proof.
  intros Hfresh Hopen.
  assert (solar.ContractsRepository fl s
          = Exited 1 (failed_state s (repoFilePath_spec fl) err)) as Hrepo.
  { now rewrite (ContractsRepository_fresh fl s Hfresh), Hopen. }
  split; [exact Hrepo|]. split.
  - intros u [[Ha Hu]|(Ha & Hb & Hu)].
    + apply is_empty_false in Ha.
      unfold solar.Deployer, mbind, outcome_bind, bind.
      rewrite Ha, Hu. cbn [negb]. now rewrite Hrepo.
    + apply is_empty_false in Hb.
      unfold solar.Deployer, mbind, outcome_bind, bind, mret, outcome_ret,
        ret.
      rewrite Ha, Hb, Hu. cbn [negb is_empty]. now rewrite Hrepo.
  - cbn. rewrite !constructions_app. cbn. lia.
Qed.

(** X4: with one endpoint set and well formed, [Deployer()] calls the
    constructor of that backend once, [sicash.NewDeployer] with the URL,
    the repository and the sender address, [eth.NewDeployer] with the URL
    and the repository; when the constructor hands back a deployer, the
    deployer is returned if there is no error beside it, and an error
    beside it is fatal, logged as "NewDeployer error" before the exit with
    code 1. *)
Theorem Deployer_single_endpoint (fl : Flags) (s s1 : State) (u : URL)
  (r : option contract.ContractsRepository) (d : Deployer)
  (e : option error) :
  solar.ContractsRepository fl s = Returned r s1 ->
  (sicashRPC fl <> "" -> ethRPC fl = "" ->
   url_ParseRequestURI (sicashRPC fl) = inl u ->
   sicash_NewDeployer u r (sicashSenderAddress fl) = (Some d, e) ->
   solar.Deployer fl s =
     match e with
     | None =>
         Returned (Some d)
           (after s1 [CallSICashNewDeployer u r (sicashSenderAddress fl)])
     | Some err =>
         Exited 1
           (after s1 [CallSICashNewDeployer u r (sicashSenderAddress fl);
                      LogFatalf "NewDeployer error %v" [err]])
     end) /\
  (sicashRPC fl = "" -> ethRPC fl <> "" ->
   url_ParseRequestURI (ethRPC fl) = inl u ->
   eth_NewDeployer u r = (Some d, e) ->
   solar.Deployer fl s =
     match e with
     | None => Returned (Some d) (after s1 [CallEthNewDeployer u r])
     | Some err =>
         Exited 1
           (after s1 [CallEthNewDeployer u r;
                      LogFatalf "NewDeployer error %v" [err]])
     end).
Proof.
  intros Hrepo. split; intros Ha Hb Hu Hnew.
  - rewrite (Deployer_sicash_outcome fl s s1 u r Ha Hb Hu Hrepo), Hnew.
    destruct e as [err|]; cbn; [|reflexivity].
    unfold after. cbn. now rewrite <- app_assoc.
  - rewrite (Deployer_eth_outcome fl s s1 u r Ha Hb Hu Hrepo), Hnew.
    destruct e as [err|]; cbn; [|reflexivity].
    unfold after. cbn. now rewrite <- app_assoc.
Qed.

(** X5: an endpoint that is set and does not parse is fatal: [Deployer()]
    logs the offending text and exits with code 1.  For the sicash
    endpoint this happens before anything else, whatever the eth endpoint
    is; for the eth endpoint with a well-formed sicash endpoint it happens
    after the sicash deployer has been constructed. *)
Theorem Deployer_invalid_url_is_fatal (fl : Flags) (s : State)
  (err : error) :
  (sicashRPC fl <> "" ->
   url_ParseRequestURI (sicashRPC fl) = inr err ->
   solar.Deployer fl s
   = Exited 1 (after s [LogFatalf "Invalid RPC url: %#v" [sicashRPC fl]])) /\
  (sicashRPC fl = "" -> ethRPC fl <> "" ->
   url_ParseRequestURI (ethRPC fl) = inr err ->
   solar.Deployer fl s
   = Exited 1 (after s [LogFatalf "Invalid RPC url: %#v" [ethRPC fl]])) /\
  (forall (ua : URL) (r : option contract.ContractsRepository)
          (s1 : State),
     sicashRPC fl <> "" -> ethRPC fl <> "" ->
     url_ParseRequestURI (sicashRPC fl) = inl ua ->
     url_ParseRequestURI (ethRPC fl) = inr err ->
     solar.ContractsRepository fl s = Returned r s1 ->
     solar.Deployer fl s
     = Exited 1
         (after s1 [CallSICashNewDeployer ua r (sicashSenderAddress fl);
                    LogFatalf "Invalid RPC url: %#v" [ethRPC fl]])).
Proof.
  split; [|split].
  - intros Ha Hu. apply is_empty_false in Ha.
    unfold solar.Deployer, mbind, outcome_bind, bind.
    now rewrite Ha, Hu.
  - intros Ha Hb Hu. apply is_empty_false in Hb.
    unfold solar.Deployer, mbind, outcome_bind, bind.
    now rewrite Ha, Hb, Hu.
  - intros ua r s1 Ha Hb Hua Hub Hrepo.
    apply is_empty_false in Ha. apply is_empty_false in Hb.
    unfold solar.Deployer, mbind, outcome_bind, bind, mret, outcome_ret,
      ret.
    rewrite Ha, Hb, Hua, Hub. cbn [negb]. rewrite Hrepo. cbn [emit].
    destruct (sicash_NewDeployer ua r (sicashSenderAddress fl)).
    unfold after, log_Fatalf, mbind, outcome_bind, bind. cbn.
    now rewrite <- app_assoc.
Qed.

(** X6: with exactly one endpoint set, and that one well formed,
    [RPCPlatform()] returns a platform and the one constructor that
    [Deployer()] calls is the constructor of that platform: the two
    selections agree. *)
Theorem Deployer_agrees_with_RPCPlatform (fl : Flags) (s s1 : State)
  (r : option contract.ContractsRepository) :
  (sicashRPC fl <> "" /\ ethRPC fl = "") \/
  (sicashRPC fl = "" /\ ethRPC fl <> "") ->
  (forall raw : string,
     raw <> "" -> raw = sicashRPC fl \/ raw = ethRPC fl ->
     exists u : URL, url_ParseRequestURI raw = inl u) ->
  solar.ContractsRepository fl s = Returned r s1 ->
  exists p : RPCPlatform,
    solar.RPCPlatform fl s = Returned p s /\
    constructed (trace (state_of (solar.Deployer fl s)))
    = (constructed (trace s) ++ [p])%list.
Proof.
  intros [[Ha Hb]|[Ha Hb]] Hparse Hrepo.
  - destruct (Hparse (sicashRPC fl) Ha (or_introl eq_refl)) as [u Hu].
    exists RPCSICash. split.
    + unfold solar.RPCPlatform, mbind, outcome_bind, bind.
      apply is_empty_false in Ha. now rewrite Ha.
    + rewrite (Deployer_sicash_outcome fl s s1 u r Ha Hb Hu Hrepo).
      rewrite Deployer_verdict_constructed. cbn.
      rewrite constructed_app. cbn.
      now rewrite (ContractsRepository_constructed fl s s1 r Hrepo).
  - destruct (Hparse (ethRPC fl) Hb (or_intror eq_refl)) as [u Hu].
    exists RPCEthereum. split.
    + unfold solar.RPCPlatform, mbind, outcome_bind, bind.
      apply is_empty_false in Hb. now rewrite Ha, Hb.
    + rewrite (Deployer_eth_outcome fl s s1 u r Ha Hb Hu Hrepo).
      rewrite Deployer_verdict_constructed. cbn.
      rewrite constructed_app. cbn.
      now rewrite (ContractsRepository_constructed fl s s1 r Hrepo).
Qed.

(** Once the reporter is made, a call returns the pointer kept and
    changes nothing. *)
Lemma Reporter_ptr_done (p : Process) :
  reporterOnce (ctx (state p)) = true ->
  Reporter_ptr p = (reporter_ptr p, p).
Proof.
  intros Hdone. unfold Reporter_ptr.
  rewrite Hdone, (Reporter_done (state p) Hdone).
  now destruct p.
Qed.

Lemma Reporter_ptr_times_done (p : Process) (n : nat) :
  reporterOnce (ctx (state p)) = true ->
  Reporter_ptr_times n p = (replicate n (reporter_ptr p), p).
Proof.
  intros Hdone. induction n as [|n IH]; [reflexivity|].
  cbn [Reporter_ptr_times replicate].
  now rewrite (Reporter_ptr_done p Hdone), IH.
Qed.


End AccessorFacts.

(** * The prefix, the expansion and the options over a whole run *)

Section RunFacts.
Context `{Ext : Externals}.

Lemma outcome_inv_final {A : Type} (fl : Flags) (o : outcome A) :
  outcome_inv fl o -> final_inv fl (state_of o).
Proof. destruct o; simpl; auto using lazy_inv_final. Qed.

Lemma keeps_prefix_ret {A : Type} (a : A) : keeps_prefix (mret a).
Proof. intros s Hs. exact Hs. Qed.

Lemma keeps_prefix_bind {A B : Type} (m : M A) (k : A -> M B) :
  keeps_prefix m -> (forall a, keeps_prefix (k a)) ->
  keeps_prefix (m ≫= k).
Proof.
  intros Hm Hk s Hs. specialize (Hm s Hs).
  unfold mbind, outcome_bind, bind.
  destruct (m s) as [a s'|code s'|e s']; simpl in *; try assumption.
  now apply Hk.
Qed.

Lemma keeps_prefix_emit (e : Effect) : keeps_prefix (emit e).
Proof. intros s Hs. exact Hs. Qed.

Lemma keeps_prefix_exit {A : Type} (code : nat) :
  keeps_prefix (A := A) (os_Exit code).
Proof. intros s Hs. exact Hs. Qed.

Lemma keeps_prefix_Fatalln {A : Type} (v : error) :
  keeps_prefix (A := A) (log_Fatalln v).
Proof. intros s Hs. exact Hs. Qed.

Lemma keeps_prefix_Fatalf {A : Type} (format : string)
  (args : list string) :
  keeps_prefix (A := A) (log_Fatalf format args).
Proof. intros s Hs. exact Hs. Qed.

Lemma keeps_prefix_and_go_on {A : Type} (m : M A) :
  keeps_prefix m -> keeps_prefix (and_go_on m).
Proof.
  intros Hm s Hs. specialize (Hm s Hs). unfold and_go_on.
  destruct (m s); exact Hm.
Qed.

Lemma keeps_prefix_RPCPlatform (fl : Flags) :
  keeps_prefix (solar.RPCPlatform fl).
Proof.
  unfold solar.RPCPlatform.
  apply keeps_prefix_bind.
  - destruct (_ && _); [apply keeps_prefix_Fatalln|apply keeps_prefix_ret].
  - intros _. destruct (negb _); apply keeps_prefix_ret.
Qed.

Lemma keeps_prefix_Reporter : keeps_prefix solar.Reporter.
Proof.
  intros s Hs.
  destruct (reporterOnce (ctx s)) eqn:Honce.
  - now rewrite (Reporter_done s Honce).
  - now rewrite (Reporter_fresh s Honce).
Qed.

Lemma keeps_prefix_ContractsRepository (fl : Flags) :
  keeps_prefix (solar.ContractsRepository fl).
Proof.
  intros s Hs.
  destruct (repoOnce (ctx s)) eqn:Honce.
  - now rewrite (ContractsRepository_done fl s Honce).
  - rewrite (ContractsRepository_fresh fl s Honce).
    now destruct (contract_OpenContractsRepository _).
Qed.

Lemma keeps_prefix_ExpandJSONParams (fl : Flags) (jsonParams : string) :
  keeps_prefix (solar.ExpandJSONParams fl jsonParams).
Proof.
  unfold solar.ExpandJSONParams.
  apply keeps_prefix_bind; [apply keeps_prefix_ContractsRepository|].
  intros r s Hs. unfold varstr.Expand. now rewrite expand_tokens_state.
Qed.

Lemma keeps_prefix_ConfigureBytesOutputFormat (fl : Flags) :
  keeps_prefix (solar.ConfigureBytesOutputFormat fl).
Proof.
  intros s Hs. unfold solar.ConfigureBytesOutputFormat.
  now destruct (negb _).
Qed.

Lemma keeps_prefix_Deployer (fl : Flags) : keeps_prefix (solar.Deployer fl).
Proof.
  unfold solar.Deployer.
  apply keeps_prefix_bind.
  { destruct (negb _); [|apply keeps_prefix_ret].
    destruct (url_ParseRequestURI _); [|apply keeps_prefix_Fatalf].
    apply keeps_prefix_bind; [apply keeps_prefix_ContractsRepository|].
    intros r. apply keeps_prefix_bind; [apply keeps_prefix_emit|].
    intros _. apply keeps_prefix_ret. }
  intros [deployer err]. apply keeps_prefix_bind.
  { destruct (negb _); [|apply keeps_prefix_ret].
    destruct (url_ParseRequestURI _); [|apply keeps_prefix_Fatalf].
    apply keeps_prefix_bind; [apply keeps_prefix_ContractsRepository|].
    intros r. apply keeps_prefix_bind; [apply keeps_prefix_emit|].
    intros _. apply keeps_prefix_ret. }
  intros [deployer' err']. apply keeps_prefix_bind.
  { destruct deployer'; [apply keeps_prefix_ret|apply keeps_prefix_Fatalln]. }
  intros _. apply keeps_prefix_bind.
  { destruct err'; [apply keeps_prefix_Fatalf|apply keeps_prefix_ret]. }
  intros _. apply keeps_prefix_ret.
Qed.

Lemma keeps_prefix_SICashRPC {RPC : Type}
  (sicash_NewRPC : string -> RPC + error) (fl : Flags) :
  keeps_prefix (solar.SICashRPC sicash_NewRPC fl).
Proof.
  intros s Hs. unfold solar.SICashRPC.
  now destruct (sicash_NewRPC (sicashRPC fl)).
Qed.

Lemma keeps_prefix_run_calls {RPC : Type}
  (sicash_NewRPC : string -> RPC + error) (fl : Flags) (cs : list call) :
  keeps_prefix (run_calls sicash_NewRPC fl cs).
Proof.
  induction cs as [|c rest IH]; cbn [run_calls]; [apply keeps_prefix_ret|].
  apply keeps_prefix_bind; [|intros _; exact IH].
  destruct c; cbn [run_call]; apply keeps_prefix_and_go_on.
  - apply keeps_prefix_RPCPlatform.
  - apply keeps_prefix_Reporter.
  - apply keeps_prefix_ret.
  - apply keeps_prefix_ContractsRepository.
  - apply keeps_prefix_SICashRPC.
  - apply keeps_prefix_ExpandJSONParams.
  - apply keeps_prefix_ConfigureBytesOutputFormat.
  - apply keeps_prefix_Deployer.
Qed.

(** A panic of the expansion names a placeholder that the repository does
    not know, and the expansion never exits. *)
Lemma expand_tokens_outcome (r : contract.ContractsRepository)
  (toks : list varstr.token) (s : State) :
  match varstr.expand_tokens toks (solar.expandKey (Some r)) s with
  | Returned _ s' => s' = s
  | Exited _ _ => False
  | Panicked e s' =>
      s' = s /\
      exists key : string,
        key ∈ names toks /\ snd (contract.Get r key) = false /\
        e = errors_Errorf "Invalid address expansion: " key
  end.
Proof.
  induction toks as [|t rest IH]; [reflexivity|].
  destruct t as [text|name]; cbn [varstr.expand_tokens names];
    unfold mbind, outcome_bind, bind.
  - destruct (varstr.expand_tokens rest _ s) as [out s'|code s'|e s'];
      [exact IH|exact IH|].
    destruct IH as (-> & key & Hin & Hkey & ->). split; [reflexivity|].
    now exists key.
  - destruct (snd (contract.Get r name)) eqn:Hname.
    + rewrite (expandKey_found r name s Hname).
      destruct (varstr.expand_tokens rest _ s) as [out s'|code s'|e s'];
        [exact IH|exact IH|].
      destruct IH as (-> & key & Hin & Hkey & ->). split; [reflexivity|].
      exists key. split; [now apply list_elem_of_further|now split].
    + rewrite (expandKey_missing r name s Hname).
      split; [reflexivity|]. exists name.
      split; [apply list_elem_of_here|now split].
Qed.

Lemma ConfigureBytesOutputFormat_returns (fl : Flags) (s : State) :
  solar.ConfigureBytesOutputFormat fl s
  = Returned tt (state_of (solar.ConfigureBytesOutputFormat fl s)).
Proof.
  unfold solar.ConfigureBytesOutputFormat. now destruct (negb _).
Qed.

(** X7: from the start of the process and over every sequence of calls of
    the methods of the context, the repository file is opened at most once
    and the task of the reporter is started at most once. *)
Theorem lazy_fields_initialised_at_most_once {RPC : Type}
  (sicash_NewRPC : string -> RPC + error) (fl : Flags) (cs : list call) :
  length (opened (trace (state_of (run_calls sicash_NewRPC fl cs State0))))
  <= 1 /\
  starts (trace (state_of (run_calls sicash_NewRPC fl cs State0))) <= 1.
Proof.
  pose proof (outcome_inv_final fl _
                (preserves_run_calls sicash_NewRPC fl cs State0
                   (lazy_inv_State0 fl))) as (Ho & Hs & _).
  now split.
Qed.

(** X8: without an eth endpoint the prefix is never switched on, whatever
    sequence of methods is called from the start of the process. *)
Theorem prefix_needs_eth_endpoint {RPC : Type}
  (sicash_NewRPC : string -> RPC + error) (fl : Flags) (cs : list call) :
  ethRPC fl = "" ->
  formatBytesWithPrefix (state_of (run_calls sicash_NewRPC fl cs State0))
  = false.
Proof.
  intros Heth.
  pose proof (outcome_inv_final fl _
                (preserves_run_calls sicash_NewRPC fl cs State0
                   (lazy_inv_State0 fl))) as (_ & _ & Hfmt & _).
  destruct (formatBytesWithPrefix _); [|reflexivity].
  now destruct (Hfmt eq_refl).
Qed.

(** X9: in a process that is still running after any sequence of calls, a
    panic of [ExpandJSONParams] is the panic for a placeholder of the
    template that the repository does not know, with the error that
    carries its identifier; in particular it is never a [nil] repository. *)
Theorem ExpandJSONParams_panics_for_unknown_placeholder_only {RPC : Type}
  (sicash_NewRPC : string -> RPC + error) (fl : Flags) (cs : list call)
  (s s' : State) (jsonParams : string) (e : error) :
  run_calls sicash_NewRPC fl cs State0 = Returned tt s ->
  solar.ExpandJSONParams fl jsonParams s = Panicked e s' ->
  exists (key : string) (r : contract.ContractsRepository),
    key ∈ names (varstr.scan jsonParams) /\
    repo (ctx s') = Some r /\
    snd (contract.Get r key) = false /\
    e = errors_Errorf "Invalid address expansion: " key.
Proof.
  intros Hrun Hpanic.
  pose proof (preserves_run_calls sicash_NewRPC fl cs State0
                (lazy_inv_State0 fl)) as Hinv.
  rewrite Hrun in Hinv. simpl in Hinv.
  destruct Hinv as (Hrepo & _).
  destruct (repoOnce (ctx s)) eqn:Honce.
  - destruct Hrepo as [_ [r Hr]].
    rewrite (ExpandJSONParams_after_repository fl jsonParams s s
               (repo (ctx s)) (ContractsRepository_done fl s Honce)),
      Hr in Hpanic.
    pose proof (expand_tokens_outcome r (varstr.scan jsonParams) s) as Hout.
    rewrite Hpanic in Hout. destruct Hout as (-> & key & Hin & Hkey & ->).
    now exists key, r.
  - pose proof (ContractsRepository_fresh fl s Honce) as Hfresh.
    destruct (contract_OpenContractsRepository (repoFilePath_spec fl))
      as [r|err] eqn:Hopen.
    + rewrite (ExpandJSONParams_after_repository fl jsonParams s _ _ Hfresh)
        in Hpanic.
      pose proof (expand_tokens_outcome r (varstr.scan jsonParams)
                    (opened_state s (repoFilePath_spec fl) r)) as Hout.
      rewrite Hpanic in Hout. destruct Hout as (-> & key & Hin & Hkey & ->).
      now exists key, r.
    + unfold solar.ExpandJSONParams, mbind, outcome_bind, bind in Hpanic.
      rewrite Hfresh in Hpanic. discriminate.
Qed.

(** X10: once the repository is open and stored, [ExpandJSONParams] reads
    only: whether it returns or panics the state of the process is what it
    was, and it never exits. *)
Theorem ExpandJSONParams_reads_only (fl : Flags) (jsonParams : string)
  (s : State) (r : contract.ContractsRepository) :
  repoOnce (ctx s) = true -> repo (ctx s) = Some r ->
  state_of (solar.ExpandJSONParams fl jsonParams s) = s /\
  forall (code : nat) (s' : State),
    solar.ExpandJSONParams fl jsonParams s <> Exited code s'.
Proof.
  intros Honce Hr.
  rewrite (ExpandJSONParams_after_repository fl jsonParams s s
             (repo (ctx s)) (ContractsRepository_done fl s Honce)), Hr.
  split; [apply expand_tokens_state|].
  intros code s' Hexit.
  pose proof (expand_tokens_outcome r (varstr.scan jsonParams) s) as Hout.
  now rewrite Hexit in Hout.
Qed.

(** X11: the options that [SolcOptions()] returns come without error, with
    [NoOptimize] the negation of the optimizer flag and with at least one
    path, none holding a comma; joined by commas the paths give back the
    allow-paths setting when it is set, and the working directory
    otherwise. *)
Theorem SolcOptions_paths_round_trip (fl : Flags) (o : CompilerOptions)
  (e : option error) :
  solar.SolcOptions fl = (Some o, e) ->
  e = None /\
  NoOptimize o = negb (solcOptimize fl) /\
  AllowPaths o <> [] /\
  Forall (fun path => strings_Count path "," = 0) (AllowPaths o) /\
  (if is_empty (solcAllowPaths fl)
   then os_Getwd = inl (strings_Join (AllowPaths o) ",")
   else strings_Join (AllowPaths o) "," = solcAllowPaths fl).
Proof.
  unfold solar.SolcOptions.
  destruct (is_empty (solcAllowPaths fl)).
  - destruct os_Getwd as [cwd|err]; [|discriminate].
    intros [= <- <-]. cbn.
    repeat split; auto using strings_Split_nonempty, strings_Split_fields.
    now rewrite strings_Join_Split.
  - intros [= <- <-]. cbn.
    repeat split; auto using strings_Split_nonempty, strings_Split_fields,
      strings_Join_Split.
Qed.

(** X12: [SolcOptions()] returns either options or an error, never both
    and never neither, and it returns an error exactly when the allow-paths
    setting is empty and the working directory cannot be found; the error
    is then the cause wrapped with the words "solc options". *)
Theorem SolcOptions_error_iff_no_cwd (fl : Flags) :
  (fst (solar.SolcOptions fl) = None <-> snd (solar.SolcOptions fl) <> None)
  /\
  forall e : error,
    snd (solar.SolcOptions fl) = Some e <->
    solcAllowPaths fl = "" /\
    exists cause : error,
      os_Getwd = inr cause /\ e = errors_Wrap cause "solc options".
Proof.
  unfold solar.SolcOptions.
  destruct (is_empty (solcAllowPaths fl)) eqn:Hset.
  - apply is_empty_true in Hset.
    destruct os_Getwd as [cwd|cause]; cbn; split.
    + split; [discriminate|congruence].
    + intros e. split; [discriminate|].
      intros (_ & cause & Hcause & _). discriminate.
    + split; [discriminate|reflexivity].
    + intros e. split.
      * intros [= <-]. split; [exact Hset|]. now exists cause.
      * intros (_ & cause' & [= <-] & ->). reflexivity.
  - apply is_empty_false in Hset. cbn. split.
    + split; [discriminate|congruence].
    + intros e. split; [discriminate|]. intros [Hempty _]. contradiction.
Qed.

(** X13: [Main()] prints the error and exits with code 1 when the command
    line does not parse, before the address format is configured or any
    task is run.  Otherwise it configures the address format and then runs
    the task of the command: it returns when the task returns no error,
    prints the error and exits with code 1 when the task returns one, and
    panics when the table has no task for the command. *)
Theorem Main_exit_status (fl : Flags) (parsed : string + error)
  (appTasks : gmap string (M (option error))) (s : State) :
  (forall err : error,
     parsed = inr err ->
     solar.Main fl parsed appTasks s
     = Exited 1 (after s [Printf "%v\n" [err]])) /\
  (forall (cmdName : string) (task : M (option error)),
     parsed = inl cmdName -> appTasks !! cmdName = Some task ->
     solar.Main fl parsed appTasks s
     = match task (state_of (solar.ConfigureBytesOutputFormat fl s)) with
       | Returned None s' => Returned tt s'
       | Returned (Some e) s' => Exited 1 (after s' [Printf "%v\n" [e]])
       | Exited code s' => Exited code s'
       | Panicked e s' => Panicked e s'
       end) /\
  (forall cmdName : string,
     parsed = inl cmdName -> appTasks !! cmdName = None ->
     exists e : error,
       solar.Main fl parsed appTasks s
       = Panicked e (state_of (solar.ConfigureBytesOutputFormat fl s))).
Proof.
  split; [|split].
  - intros err ->. reflexivity.
  - intros cmdName task -> Htask.
    unfold solar.Main, mbind, outcome_bind, bind.
    pose proof (ConfigureBytesOutputFormat_returns fl s) as Hcfg.
    destruct (solar.ConfigureBytesOutputFormat fl s) as [[] s0| |];
      try discriminate.
    cbn [state_of]. unfold error in *. rewrite Htask.
    destruct (task s0) as [[e|] s'|code s'|e s']; reflexivity.
  - intros cmdName -> Htask.
    unfold solar.Main, mbind, outcome_bind, bind.
    pose proof (ConfigureBytesOutputFormat_returns fl s) as Hcfg.
    destruct (solar.ConfigureBytesOutputFormat fl s) as [[] s0| |];
      try discriminate.
    cbn [state_of]. unfold error in *. rewrite Htask.
    eexists. reflexivity.
Qed.

(** X14: when [Main()] runs, from the start of the process, a task that
    makes any sequence of calls on the context, the prefix is on at the end
    exactly when the eth endpoint is set: [Main()] switches it on before
    the task and no call switches it off or on afterwards; and the
    repository file is opened at most once, the reporter started at most
    once. *)
Theorem Main_fixes_prefix_for_the_task {RPC : Type}
  (sicash_NewRPC : string -> RPC + error) (fl : Flags) (cmdName : string)
  (cs : list call) (appTasks : gmap string (M (option error))) :
  appTasks !! cmdName = Some (task_of sicash_NewRPC fl cs) ->
  formatBytesWithPrefix
    (state_of (solar.Main fl (inl cmdName) appTasks State0))
  = negb (is_empty (ethRPC fl)) /\
  length (opened (trace
            (state_of (solar.Main fl (inl cmdName) appTasks State0)))) <= 1 /\
  starts (trace (state_of (solar.Main fl (inl cmdName) appTasks State0)))
  <= 1.
Proof.
  intros Htask.
  set (s0 := state_of (solar.ConfigureBytesOutputFormat fl State0)).
  assert (state_of (solar.Main fl (inl cmdName) appTasks State0)
          = state_of (run_calls sicash_NewRPC fl cs s0)) as ->.
  { unfold solar.Main, mbind, outcome_bind, bind. subst s0.
    pose proof (ConfigureBytesOutputFormat_returns fl State0) as Hcfg.
    destruct (solar.ConfigureBytesOutputFormat fl State0) as [[] s0| |];
      try discriminate.
    cbn [state_of]. unfold error in *. rewrite Htask.
    unfold task_of, mbind, outcome_bind, bind.
    now destruct (run_calls sicash_NewRPC fl cs s0). }
  assert (lazy_inv fl s0) as Hs0.
  { pose proof (preserves_ConfigureBytesOutputFormat fl State0
                  (lazy_inv_State0 fl)) as H.
    now rewrite ConfigureBytesOutputFormat_returns in H. }
  pose proof (outcome_inv_final fl _
                (preserves_run_calls sicash_NewRPC fl cs s0 Hs0))
    as (Ho & Hs & Hfmt & _).
  split; [|now split].
  destruct (is_empty (ethRPC fl)) eqn:Heth; cbn [negb].
  - apply is_empty_true in Heth.
    destruct (formatBytesWithPrefix _); [|reflexivity].
    now destruct (Hfmt eq_refl).
  - apply keeps_prefix_run_calls.
    unfold s0, solar.ConfigureBytesOutputFormat. now rewrite Heth.
Qed.

End RunFacts.

(** * The further properties at work in the concrete world *)

Section MoreInstances.
Import Example Scenario.
Existing Instance home.

Lemma Reporter_started_once_witness :
  repeatM solar.Reporter 3 State0
  = Returned [Some newEvents; Some newEvents; Some newEvents]
      (started_state State0) /\
  starts (trace (started_state State0)) = 1.
Proof.
  apply (Reporter_started_once State0 2). reflexivity.
Defined.


Lemma ConfigureBytesOutputFormat_both_endpoints_witness :
  (solar.RPCPlatform bothEndpoints State0 = Returned RPCSICash State0 /\
   solar.ConfigureBytesOutputFormat bothEndpoints State0
   = Returned tt (format_state State0 true) /\
   formatBytesWithPrefix
     (state_of (solar.ConfigureBytesOutputFormat bothEndpoints State0))
   = true) /\
  (solar.ConfigureBytesOutputFormat onlyEth State0
   = Returned tt (format_state State0 true)
   <-> solar.RPCPlatform onlyEth State0 = Returned RPCEthereum State0) /\
  solar.ConfigureBytesOutputFormat onlySICash State0 = Returned tt State0.
Proof.
  split; [|split].
  - apply (proj2 (ConfigureBytesOutputFormat_both_endpoints bothEndpoints
                    State0)); discriminate.
  - apply (proj1 (ConfigureBytesOutputFormat_both_endpoints onlyEth State0)).
    left. reflexivity.
  - apply (proj1 (ConfigureBytesOutputFormat_both_endpoints onlySICash
                    State0)); [right; reflexivity|discriminate].
Defined.

Lemma ContractsRepository_opened_once_witness :
  repeatM (solar.ContractsRepository onlyEth) 2 State0
  = Returned [Some theRepo; Some theRepo]
      (opened_state State0 "repo.json" theRepo) /\
  opened (trace (opened_state State0 "repo.json" theRepo)) = ["repo.json"].
Proof.
  apply (ContractsRepository_opened_once onlyEth State0 theRepo 1);
    reflexivity.
Defined.

Lemma repository_open_failure_is_fatal_witness :
  solar.ContractsRepository missingRepo State0
  = Exited 1 (failed_state State0 "missing.json"
                "no such file or directory") /\
  solar.Deployer missingRepo State0
  = Exited 1 (failed_state State0 "missing.json"
                "no such file or directory") /\
  constructions (trace (failed_state State0 "missing.json"
                          "no such file or directory")) = 0.
Proof.
  destruct (repository_open_failure_is_fatal missingRepo State0
              "no such file or directory" ltac:(reflexivity) ltac:(reflexivity))
    as (Hrepo & Hdeployer & Hcount).
  split; [exact Hrepo|]. split; [|exact Hcount].
  apply (Hdeployer "http://sicash:3889"). left.
  split; [discriminate|reflexivity].
Defined.

Lemma Deployer_single_endpoint_witness :
  solar.Deployer onlySICash State0
  = Returned
      (Some (SICashDeployer "http://sicash:3889" (Some theRepo) "sender"))
      (after (opened_state State0 "solar.staging.json" theRepo)
         [CallSICashNewDeployer (Ext := home) "http://sicash:3889"
            (Some theRepo) "sender"]) /\
  solar.Deployer onlyEth State0
  = Returned (Some (EthDeployer "http://geth:8545" (Some theRepo)))
      (after (opened_state State0 "repo.json" theRepo)
         [CallEthNewDeployer (Ext := home) "http://geth:8545"
            (Some theRepo)]) /\
  solar.Deployer (Ext := refusing) onlySICash State0
  = Exited 1
      (after (opened_state State0 "solar.staging.json" theRepo)
         [CallSICashNewDeployer (Ext := refusing) "http://sicash:3889"
            (Some theRepo) "sender";
          LogFatalf "NewDeployer error %v" ["connection refused"]]) /\
  solar.Deployer (Ext := refusing) onlyEth State0
  = Exited 1
      (after (opened_state State0 "repo.json" theRepo)
         [CallEthNewDeployer (Ext := refusing) "http://geth:8545"
            (Some theRepo);
          LogFatalf "NewDeployer error %v" ["connection refused"]]).
Proof.
  assert (solar.ContractsRepository onlySICash State0
          = Returned (Some theRepo)
              (opened_state State0 "solar.staging.json" theRepo)) as Ha
    by reflexivity.
  assert (solar.ContractsRepository onlyEth State0
          = Returned (Some theRepo)
              (opened_state State0 "repo.json" theRepo)) as Hb
    by reflexivity.
  assert (solar.ContractsRepository (Ext := refusing) onlySICash State0
          = Returned (Some theRepo)
              (opened_state State0 "solar.staging.json" theRepo)) as Hc
    by reflexivity.
  assert (solar.ContractsRepository (Ext := refusing) onlyEth State0
          = Returned (Some theRepo)
              (opened_state State0 "repo.json" theRepo)) as Hd
    by reflexivity.
  split; [|split; [|split]].
  - apply (proj1 (Deployer_single_endpoint (Ext := home) onlySICash State0
                    _ "http://sicash:3889" (Some theRepo)
                    (SICashDeployer "http://sicash:3889" (Some theRepo)
                       "sender")
                    None Ha));
      [discriminate|reflexivity|reflexivity|reflexivity].
  - apply (proj2 (Deployer_single_endpoint (Ext := home) onlyEth State0
                    _ "http://geth:8545" (Some theRepo)
                    (EthDeployer "http://geth:8545" (Some theRepo))
                    None Hb));
      [reflexivity|discriminate|reflexivity|reflexivity].
  - apply (proj1 (Deployer_single_endpoint (Ext := refusing) onlySICash
                    State0 _ "http://sicash:3889" (Some theRepo)
                    (SICashDeployer "http://sicash:3889" (Some theRepo)
                       "sender")
                    (Some "connection refused") Hc));
      [discriminate|reflexivity|reflexivity|reflexivity].
  - apply (proj2 (Deployer_single_endpoint (Ext := refusing) onlyEth State0
                    _ "http://geth:8545" (Some theRepo)
                    (EthDeployer "http://geth:8545" (Some theRepo))
                    (Some "connection refused") Hd));
      [reflexivity|discriminate|reflexivity|reflexivity].
Defined.

Lemma Deployer_invalid_url_is_fatal_witness :
  solar.Deployer badSICash State0
  = Exited 1 (after State0
                [LogFatalf "Invalid RPC url: %#v" ["sicash-node"]]) /\
  solar.Deployer onlyBadEth State0
  = Exited 1 (after State0
                [LogFatalf "Invalid RPC url: %#v" ["geth-node"]]) /\
  solar.Deployer badEth State0
  = Exited 1
      (after (opened_state State0 "solar.staging.json" theRepo)
         [CallSICashNewDeployer (Ext := home) "http://sicash:3889"
            (Some theRepo) "sender";
          LogFatalf "Invalid RPC url: %#v" ["geth-node"]]).
Proof.
  split; [|split].
  - apply (proj1 (Deployer_invalid_url_is_fatal badSICash State0
                    "invalid URI for request"));
      [discriminate|reflexivity].
  - apply (proj1 (proj2 (Deployer_invalid_url_is_fatal onlyBadEth State0
                           "invalid URI for request")));
      [reflexivity|discriminate|reflexivity].
  - apply (proj2 (proj2 (Deployer_invalid_url_is_fatal (Ext := home) badEth
                           State0 "invalid URI for request"))
             "http://sicash:3889" (Some theRepo));
      [discriminate|discriminate|reflexivity|reflexivity|reflexivity].
Defined.

Lemma Deployer_agrees_with_RPCPlatform_witness :
  exists p : RPCPlatform,
    solar.RPCPlatform onlyEth State0 = Returned p State0 /\
    constructed (trace (state_of (solar.Deployer onlyEth State0))) = [p].
Proof.
  apply (Deployer_agrees_with_RPCPlatform onlyEth State0
           (opened_state State0 "repo.json" theRepo) (Some theRepo)).
  - right. split; [reflexivity|discriminate].
  - intros raw Hraw [ -> | -> ]; [now destruct Hraw|].
    exists "http://geth:8545". reflexivity.
  - reflexivity.
Defined.

Lemma prefix_needs_eth_endpoint_witness :
  formatBytesWithPrefix
    (state_of (run_calls newRPC onlySICash
                 (DoConfigureBytesOutputFormat :: deployCalls) State0))
  = false.
Proof.
  apply (prefix_needs_eth_endpoint newRPC onlySICash). reflexivity.
Defined.

Lemma ExpandJSONParams_panics_for_unknown_placeholder_only_witness :
  exists (key : string) (r : contract.ContractsRepository),
    key ∈ names (varstr.scan "addr=$Missing") /\
    repo (ctx (opened_state (started_state State0) "solar.staging.json"
                 theRepo)) = Some r /\
    snd (contract.Get r key) = false /\
    "Invalid address expansion: Missing"
    = errors_Errorf "Invalid address expansion: " key.
Proof.
  apply (ExpandJSONParams_panics_for_unknown_placeholder_only newRPC
           onlySICash [DoReporter] (started_state State0)
           (opened_state (started_state State0) "solar.staging.json"
              theRepo)
           "addr=$Missing" "Invalid address expansion: Missing");
    reflexivity.
Defined.

Lemma ExpandJSONParams_reads_only_witness :
  state_of (solar.ExpandJSONParams onlySICash "addr=$Missing"
              (opened_state State0 "solar.staging.json" theRepo))
  = opened_state State0 "solar.staging.json" theRepo /\
  forall (code : nat) (s' : State),
    solar.ExpandJSONParams onlySICash "addr=$Missing"
      (opened_state State0 "solar.staging.json" theRepo)
    <> Exited code s'.
Proof.
  apply (ExpandJSONParams_reads_only onlySICash "addr=$Missing"
           (opened_state State0 "solar.staging.json" theRepo) theRepo);
    reflexivity.
Defined.

Lemma SolcOptions_paths_round_trip_witness :
  (@None error = None /\
   false = negb true /\
   ["/srv/a"; "b"] <> [] /\
   Forall (fun path => strings_Count path "," = 0) ["/srv/a"; "b"] /\
   inl "/srv/a,b" = inl (B := error) (strings_Join ["/srv/a"; "b"] ",")) /\
  (@None error = None /\
   false = negb true /\
   ["lib"; "vendor"] <> [] /\
   Forall (fun path => strings_Count path "," = 0) ["lib"; "vendor"] /\
   strings_Join ["lib"; "vendor"] "," = "lib,vendor").
Proof.
  split.
  - apply (SolcOptions_paths_round_trip
             (Ext := world (inl "/srv/a,b")) defaultFlags
             {| NoOptimize := false; AllowPaths := ["/srv/a"; "b"] |} None).
    reflexivity.
  - apply (SolcOptions_paths_round_trip onlyEth
             {| NoOptimize := false; AllowPaths := ["lib"; "vendor"] |}
             None).
    reflexivity.
Defined.

Lemma Main_exit_status_witness :
  solar.Main bothEndpoints (inr "unknown command") (tasks bothEndpoints) State0
  = Exited 1 (after State0 [Printf "%v\n" ["unknown command"]]) /\
  solar.Main bothEndpoints (inl "fail") (tasks bothEndpoints) State0
  = Exited 1 (after (started_state (format_state State0 true))
                [Printf "%v\n" ["deploy failed"]]) /\
  returned (solar.Main bothEndpoints (inl "deploy") (tasks bothEndpoints) State0)
  = Some tt /\
  exists e : error,
    solar.Main bothEndpoints (inl "build") (tasks bothEndpoints) State0
    = Panicked e (format_state State0 true).
Proof.
  destruct (Main_exit_status bothEndpoints (inr "unknown command")
              (tasks bothEndpoints) State0) as (Hparse & _ & _).
  destruct (Main_exit_status bothEndpoints (inl "fail") (tasks bothEndpoints) State0)
    as (_ & Hfail & _).
  destruct (Main_exit_status bothEndpoints (inl "deploy") (tasks bothEndpoints) State0)
    as (_ & Hdeploy & _).
  destruct (Main_exit_status bothEndpoints (inl "build") (tasks bothEndpoints) State0)
    as (_ & _ & Hbuild).
  split; [now apply Hparse|]. split.
  { rewrite (Hfail "fail" failing ltac:(reflexivity) ltac:(reflexivity)). reflexivity. }
  split.
  { rewrite (Hdeploy "deploy" (task_of newRPC bothEndpoints deployCalls)
               ltac:(reflexivity) ltac:(reflexivity)).
    reflexivity. }
  apply (Hbuild "build"); reflexivity.
Defined.

Lemma Main_fixes_prefix_for_the_task_witness :
  formatBytesWithPrefix
    (state_of (solar.Main bothEndpoints (inl "deploy") (tasks bothEndpoints) State0))
  = true /\
  length (opened (trace (state_of (solar.Main bothEndpoints (inl "deploy")
                                     (tasks bothEndpoints) State0)))) <= 1 /\
  starts (trace (state_of (solar.Main bothEndpoints (inl "deploy")
                             (tasks bothEndpoints) State0))) <= 1.
Proof.
  apply (Main_fixes_prefix_for_the_task newRPC bothEndpoints "deploy" deployCalls
           (tasks bothEndpoints)).
  reflexivity.
Defined.

End MoreInstances.
